(** * scheduler-refactor: a shallow embedding of the scheduling core

    The Go packages [common], [pkg/etcd], [pkg/mongodb], [master/jobmgr],
    [master/api], [master/logmgr], [worker/jobmgr], [worker/joblock],
    [worker/executor], [worker/logsink], [worker/scheduler] and
    [cmd/worker] are rendered as Rocq modules of the same names.

    Conventions.
    - Go's [int]/[int64] are [Z]; arithmetic that can leave the 64-bit
      range is passed through [int64].
    - [string] and [[]byte] are Rocq strings (sequences of bytes).
    - [time.Time] is the number of nanoseconds since the Unix epoch.
      Calendar arithmetic on it ([AddDate]) depends on the time zone of
      the process and is left to the [time] package, an interface here.
    - Go maps and [sync.Map] are [gmap]s; buffered channels are lists
      (oldest element first) together with their capacity.
    - [float64] values are IEEE 754 binary64 numbers, as the specification
      floats of the standard library.
    - A remote call (etcd, MongoDB) may fail: every store carries a fault
      schedule, one boolean per upcoming call, [true] meaning that the
      call returns a transport error.
    - Calls to the zap logger are left out, except in the log sink where
      the record written on overflow is part of the behaviour studied. *)

From stdpp Require Import gmap strings list sorting.
From Stdlib Require Import ZArith DecimalString.
From Stdlib Require Import Floats.SpecFloat.

Open Scope Z_scope.

(** ** Machine integers and time *)

Definition int64 (z : Z) : Z := (z + 2 ^ 63) mod 2 ^ 64 - 2 ^ 63.

Definition is_int64 (z : Z) : Prop := - 2 ^ 63 <= z < 2 ^ 63.

Definition Time := Z.

(** [t.Unix()]: whole seconds since the epoch. *)
Definition Unix (t : Time) : Z := t `div` 1000000000.

(** ** Errors (package common, errors.go) *)

Inductive error :=
| ErrJobNotFound
| ErrLockAlreadyAcquired
| EtcdError (operation key : string)
| MongoError (operation collection : string)
| JobError (jobName : string) (err : error)
| Errorf (msg : string).

(** Computations that thread a store and may return a Go [error]. *)
Definition M (S A : Type) : Type := S -> (error + A) * S.

Definition ret {S A} (a : A) : M S A := fun s => (inr a, s).

Definition fail {S A} (e : error) : M S A := fun s => (inl e, s).

Definition bind {S A B} (m : M S A) (k : A -> M S B) : M S B :=
  fun s => match m s with
           | (inr a, s') => k a s'
           | (inl e, s') => (inl e, s')
           end.

Notation "x <- m ;; k" := (bind m (fun x => k))
  (at level 100, m at next level, right associativity).

(** ** Package common *)

Module common.

Definition JobSaveDir : string := "/cron/jobs/".
Definition JobLockDir : string := "/cron/lock/".
Definition WorkerRegisterDir : string := "/cron/workers/".

Definition JobEventSave : Z := 1.
Definition JobEventDelete : Z := 2.

Definition ApiSuccess : Z := 0.
Definition ApiFailure : Z := 1000.
Definition ApiParamError : Z := 1001.

Definition ApiJobNotExist : Z := 1002.
Definition ApiJobExecFail : Z := 1003.
Definition ApiSystemError : Z := 2000.
Definition ApiDbError : Z := 2001.

Definition DefaultPage : Z := 1.
Definition DefaultPageSize : Z := 10.
Definition MaxPageSize : Z := 100.

Definition LogCollectionName : string := "job_logs".

Record Job := mkJob {
  Name : string;
  Command : string;
  CronExpr : string;
  Timeout : Z;
  Disabled : bool;
  CreatedAt : Z;
  UpdatedAt : Z }.

Definition set_Disabled (b : bool) (j : Job) : Job :=
  mkJob (Name j) (Command j) (CronExpr j) (Timeout j) b (CreatedAt j) (UpdatedAt j).

Definition set_CreatedAt (t : Z) (j : Job) : Job :=
  mkJob (Name j) (Command j) (CronExpr j) (Timeout j) (Disabled j) t (UpdatedAt j).

Definition set_UpdatedAt (t : Z) (j : Job) : Job :=
  mkJob (Name j) (Command j) (CronExpr j) (Timeout j) (Disabled j) (CreatedAt j) t.

Record JobEvent := mkJobEvent {
  EventType : Z;
  EventJob : Job }.

Record JobExecuteInfo := mkJobExecuteInfo {
  InfoJob : Job;
  PlanTime : Time;
  RealTime : Time }.

Record JobExecuteResult := mkJobExecuteResult {
  ResJobName : string;
  ResOutput : string;
  ResError : string;
  ResStartTime : Time;
  ResEndTime : Time;
  ResExitCode : Z;
  ResIsTimeout : bool }.

Record JobLog := mkJobLog {
  JobName : string;
  LogCommand : string;
  Output : string;
  Error : string;
  LogPlanTime : Z;
  ScheduleTime : Z;
  StartTime : Z;
  EndTime : Z;
  ExitCode : Z;
  IsTimeout : bool;
  WorkerIP : string }.

End common.

Import common.

(** ** The libraries the code calls

    [encoding/json] on [common.Job], the cron parser of the control API
    (robfig/cron, used only to validate), the cron library of the
    scheduler (gorhill/cronexpr) and the calendar of package [time] are
    interfaces of the embedding. *)

Class Json := {
  Marshal : Job -> error + string;
  Unmarshal : string -> option Job }.

Class CronValidator := {
  cron_Parse : string -> bool }.

Class Cronexpr := {
  Expression : Type;
  Parse : string -> option Expression;
  Next : Expression -> Time -> Time }.

(** [t.AddDate(0, 0, days)] for a [t] read from [time.Now()].  Go moves
    the civil date of [t] in the local zone of the process by [days] days
    and keeps the time of day, so the number of seconds between [t] and
    the result depends on the zone (a day that holds a clock change is
    not 86400 seconds long) and on Go's own range of [time.Time].
    Nothing in the program fixes the zone. *)
Class Calendar := {
  AddDate_days : Time -> Z -> Time }.

(** ** Package pkg/etcd: the client and the store behind it *)

Module etcd.

Record KeyValue := mkKeyValue {
  Key : string;
  Value : string;
  Lease : Z;
  CreateRevision : positive;
  ModRevision : positive }.

(** What the client talks to: the keys, the live leases with their TTL,
    the store revision and the fault schedule of the connection. *)
Record Store := mkStore {
  kvs : gmap string KeyValue;
  leases : gmap positive Z;
  revision : positive;
  faults : list bool }.

(** One round trip: [true] when the call goes through. *)
Definition rpc (c : Store) : bool * Store :=
  match faults c with
  | [] => (true, c)
  | f :: fs => (negb f, mkStore (kvs c) (leases c) (revision c) fs)
  end.

(** The create revision of a key; [0] when the key does not exist. *)
Definition createRevision (c : Store) (key : string) : Z :=
  match kvs c !! key with
  | Some kv => Z.pos (CreateRevision kv)
  | None => 0
  end.

Definition kv_put (key value : string) (lease : Z) (c : Store) : Store :=
  let rev := (revision c + 1)%positive in
  let cr := match kvs c !! key with
            | Some kv => CreateRevision kv
            | None => rev
            end in
  mkStore (<[key := mkKeyValue key value lease cr rev]> (kvs c))
          (leases c) rev (faults c).

Definition kv_delete (key : string) (c : Store) : Z * Store :=
  match kvs c !! key with
  | Some _ => (1, mkStore (delete key (kvs c)) (leases c)
                          (revision c + 1)%positive (faults c))
  | None => (0, c)
  end.

Definition lease_grant (ttl : Z) (c : Store) : positive * Store :=
  let id := fresh (dom (leases c)) in
  (id, mkStore (kvs c) (<[id := ttl]> (leases c)) (revision c) (faults c)).

(** Revoking a lease removes it and every key attached to it. *)
Definition lease_revoke (id : Z) (c : Store) : Store :=
  match id with
  | Z.pos p =>
      match leases c !! p with
      | Some _ =>
          mkStore (filter (fun kv => Lease kv.2 ≠ id) (kvs c))
                  (delete p (leases c)) (revision c + 1)%positive (faults c)
      | None => c
      end
  | _ => c
  end.

(** [Client.Get]: the response lists the key when it exists. *)
Definition Get (key : string) : M Store (list KeyValue) := fun c =>
  let '(ok, c) := rpc c in
  if ok then (inr (option_list (kvs c !! key)), c)
  else (inl (EtcdError "get" key), c).

(** [Client.Put]. *)
Definition Put (key value : string) : M Store unit := fun c =>
  let '(ok, c) := rpc c in
  if ok then (inr tt, kv_put key value 0 c)
  else (inl (EtcdError "put" key), c).

(** [Client.Delete]: the number of keys removed. *)
Definition Delete (key : string) : M Store Z := fun c =>
  let '(ok, c) := rpc c in
  if ok then let '(n, c) := kv_delete key c in (inr n, c)
  else (inl (EtcdError "delete" key), c).

(** [Client.PutWithLease]. *)
Definition PutWithLease (key value : string) (ttl : Z) : M Store unit := fun c =>
  let '(ok, c) := rpc c in
  if ok then
    let '(id, c) := lease_grant ttl c in
    let '(ok, c) := rpc c in
    if ok then (inr tt, kv_put key value (Z.pos id) c)
    else (inl (EtcdError "putWithLease" key), c)
  else (inl (EtcdError "lease.grant" key), c).

(** [Client.TryAcquireLock]: grant a lease, then commit the transaction
    [If CreateRevision(lockKey) = 0 Then Put(lockKey, "", lease) Else Get]. *)
Definition TryAcquireLock (lockKey : string) (ttl : Z) : M Store Z := fun c =>
  let '(ok, c) := rpc c in
  if ok then
    let '(id, c) := lease_grant ttl c in
    let '(ok, c) := rpc c in
    if ok then
      let succeeded := createRevision c lockKey =? 0 in
      let c := if succeeded then kv_put lockKey "" (Z.pos id) c else c in
      if negb succeeded then (inl ErrLockAlreadyAcquired, c)
      else (inr (Z.pos id), c)
    else (inl (EtcdError "txn" lockKey), c)
  else (inl (EtcdError "lease.grant" lockKey), c).

(** [Client.ReleaseLock]: revoke the lease. *)
Definition ReleaseLock (lockKey : string) (leaseID : Z) : M Store unit := fun c =>
  let '(ok, c) := rpc c in
  if ok then (inr tt, lease_revoke leaseID c)
  else (inl (EtcdError "revoke" lockKey), c).

(** The order in which a range request lists its keys. *)
Definition key_le (a b : string * KeyValue) : Prop := String.leb a.1 b.1 = true.

#[global] Instance key_le_dec a b : Decision (key_le a b).
Proof. unfold key_le. apply _. Defined.

(** [Client.GetWithPrefix]: the keys that start with [prefix], by key. *)
Definition GetWithPrefix (prefix : string) : M Store (list KeyValue) := fun c =>
  let '(ok, c) := rpc c in
  if ok then
    (inr ((merge_sort key_le
             (map_to_list
                (filter (fun e : string * KeyValue => String.prefix prefix e.1 = true)
                   (kvs c)))).*2), c)
  else (inl (EtcdError "getWithPrefix" prefix), c).

End etcd.

(** ** Package worker/joblock *)

Module joblock.

Record JobLock := mkJobLock {
  jobName : string;
  lockKey : string;
  leaseID : Z;
  isLocked : bool }.

Definition NewJobLock (name : string) : JobLock :=
  mkJobLock name (JobLockDir +:+ name) 0 false.

(** [JobLock.TryLock]; [ttl] is [config.GlobalConfig.JobLockTTL].  The
    renewal goroutine started on success is not part of the model. *)
Definition TryLock (ttl : Z) (jl : JobLock) (c : etcd.Store)
  : option error * JobLock * etcd.Store :=
  match etcd.TryAcquireLock (lockKey jl) ttl c with
  | (inl err, c) => (Some err, jl, c)
  | (inr id, c) => (None, mkJobLock (jobName jl) (lockKey jl) id true, c)
  end.

(** [JobLock.Unlock]. *)
Definition Unlock (jl : JobLock) (c : etcd.Store) : JobLock * etcd.Store :=
  if isLocked jl then
    let '(_, c) := etcd.ReleaseLock (lockKey jl) (leaseID jl) c in
    (mkJobLock (jobName jl) (lockKey jl) 0 false, c)
  else (jl, c).

End joblock.

(** ** Package master/jobmgr *)

Module master_jobmgr.

(** [toLower]: the byte of an upper-case ASCII letter moved up by
    ['a' - 'A']; every other byte as it is. *)
Definition toLower (c : Ascii.ascii) : Ascii.ascii :=
  let n := Ascii.nat_of_ascii c in
  if ((65 <=? n) && (n <=? 90))%nat then Ascii.ascii_of_nat (n + 32) else c.

(** [s[i]]; the loops below index within the bounds only. *)
Definition byteAt (s : string) (i : nat) : Ascii.ascii :=
  match String.get i s with
  | Some c => c
  | None => Ascii.zero
  end.

(** The inner loop of [containsSubstring] at offset [i], from index [j],
    with [n] iterations to go; [false] stands for the [break]. *)
Fixpoint matchFrom (source substr : string) (i j n : nat) : bool :=
  match n with
  | O => true
  | S n =>
      if Ascii.eqb (toLower (byteAt source (i + j))) (toLower (byteAt substr j))
      then matchFrom source substr i (S j) n
      else false
  end.

(** The outer loop from offset [i], with [n] offsets to go. *)
Fixpoint searchFrom (source substr : string) (i n : nat) : bool :=
  match n with
  | O => false
  | S n =>
      if matchFrom source substr i 0 (String.length substr) then true
      else searchFrom source substr (S i) n
  end.

(** [containsSubstring]. *)
Definition containsSubstring (source substr : string) : bool :=
  let sourceLen := String.length source in
  let substrLen := String.length substr in
  if (sourceLen <? substrLen)%nat then false
  else searchFrom source substr 0 (S (sourceLen - substrLen)).

(** [containsString]. *)
Definition containsString (source substr : string) : bool :=
  containsSubstring source substr.

Section with_json.
Context `{Json}.

(** [JobManager.SaveJob]; [now] is the reading of [time.Now()].  The job
    is passed by pointer, so the stamped job is returned to the caller
    whether or not the write succeeds. *)
Definition SaveJob (now : Time) (job : Job) (c : etcd.Store)
  : option error * Job * etcd.Store :=
  let now := Unix now in
  let job := if CreatedAt job =? 0 then set_CreatedAt now job else job in
  let job := set_UpdatedAt now job in
  match Marshal job with
  | inl _ => (Some (Errorf "failed to marshal job"), job, c)
  | inr jobData =>
      let jobKey := JobSaveDir +:+ Name job in
      match etcd.Put jobKey jobData c with
      | (inl err, c) => (Some err, job, c)
      | (inr _, c) => (None, job, c)
      end
  end.

(** [JobManager.DeleteJob]. *)
Definition DeleteJob (jobName : string) (c : etcd.Store)
  : option error * etcd.Store :=
  let jobKey := JobSaveDir +:+ jobName in
  match etcd.Delete jobKey c with
  | (inl err, c) => (Some err, c)
  | (inr deleted, c) =>
      if deleted =? 0 then (Some ErrJobNotFound, c) else (None, c)
  end.

(** [JobManager.GetJob]. *)
Definition GetJob (jobName : string) : M etcd.Store Job :=
  let jobKey := JobSaveDir +:+ jobName in
  resp <- etcd.Get jobKey ;;
  match resp with
  | [] => fail ErrJobNotFound
  | kv :: _ =>
      match Unmarshal (etcd.Value kv) with
      | None => fail (Errorf "failed to unmarshal job data")
      | Some job => ret job
      end
  end.

(** [JobManager.KillJob]: the kill marker, a leased key of five seconds. *)
Definition KillJob (jobName : string) (c : etcd.Store)
  : option error * etcd.Store :=
  let killKey := JobLockDir +:+ jobName in
  match etcd.PutWithLease killKey "" 5 c with
  | (inl err, c) => (Some err, c)
  | (inr _, c) => (None, c)
  end.

(** [JobManager.DisableJob]; [t1] and [t2] are the two clock readings, the
    one of [DisableJob] itself and the one taken inside [SaveJob]. *)
Definition DisableJob (t1 t2 : Time) (jobName : string) (c : etcd.Store)
  : option error * etcd.Store :=
  match GetJob jobName c with
  | (inl err, c) => (Some err, c)
  | (inr job, c) =>
      let job := set_Disabled true job in
      let job := set_UpdatedAt (Unix t1) job in
      let '(err, _, c) := SaveJob t2 job c in
      (err, c)
  end.

(** [JobManager.EnableJob]. *)
Definition EnableJob (t1 t2 : Time) (jobName : string) (c : etcd.Store)
  : option error * etcd.Store :=
  match GetJob jobName c with
  | (inl err, c) => (Some err, c)
  | (inr job, c) =>
      let job := set_Disabled false job in
      let job := set_UpdatedAt (Unix t1) job in
      let '(err, _, c) := SaveJob t2 job c in
      (err, c)
  end.

(** [JobManager.ListJobs]: values that do not decode are skipped. *)
Definition ListJobs : M etcd.Store (list Job) :=
  kvs <- etcd.GetWithPrefix JobSaveDir ;;
  ret (omap (fun kv => Unmarshal (etcd.Value kv)) kvs).

(** [JobManager.SearchJobs]. *)
Definition SearchJobs (keyword : string) : M etcd.Store (list Job) :=
  allJobs <- ListJobs ;;
  if String.eqb keyword "" then ret allJobs
  else
    ret (filter (fun job => containsString (Name job) keyword
                            || containsString (Command job) keyword = true)
           allJobs).

End with_json.

End master_jobmgr.

(** ** Package master/api: the job handlers *)

Module api.

Record ApiResponse := mkApiResponse {
  Code : Z;
  Message : string;
  Data : option Job }.

Definition success (data : Job) : ApiResponse :=
  mkApiResponse ApiSuccess "success" (Some data).

Definition failure (code : Z) (message : string) : ApiResponse :=
  mkApiResponse code message None.

Section with_libs.
Context `{Json} `{CronValidator}.

(** [Server.saveJob]; [body] is the request body bound with
    [ShouldBindJSON].  Messages carry the fixed part of the text only. *)
Definition saveJob (now : Time) (body : string) (c : etcd.Store)
  : ApiResponse * etcd.Store :=
  match Unmarshal body with
  | None => (failure ApiParamError "invalid job data: ", c)
  | Some job =>
      if String.eqb (Name job) "" then
        (failure ApiParamError "job name is required", c)
      else if String.eqb (Command job) "" then
        (failure ApiParamError "job command is required", c)
      else if String.eqb (CronExpr job) "" then
        (failure ApiParamError "job cron expression is required", c)
      else if negb (cron_Parse (CronExpr job)) then
        (failure ApiParamError "invalid cron expression: ", c)
      else
        match master_jobmgr.SaveJob now job c with
        | (Some _, _, c) => (failure ApiFailure "failed to save job: ", c)
        | (None, job, c) => (success job, c)
        end
  end.

(** [errors.Is(err, common.ErrJobNotFound)]: [JobError] unwraps to the
    error it holds; the other errors wrap nothing of the repository. *)
Fixpoint isErrJobNotFound (err : error) : bool :=
  match err with
  | ErrJobNotFound => true
  | JobError _ err => isErrJobNotFound err
  | _ => false
  end.

(** [Server.deleteJob]. *)
Definition deleteJob (jobName : string) (c : etcd.Store)
  : ApiResponse * etcd.Store :=
  match master_jobmgr.DeleteJob jobName c with
  | (Some err, c) =>
      if isErrJobNotFound err then (failure ApiJobNotExist "job does not exist", c)
      else (failure ApiFailure "failed to delete job: ", c)
  | (None, c) => (mkApiResponse ApiSuccess "success" None, c)
  end.

(** [Server.getJob]. *)
Definition getJob (jobName : string) (c : etcd.Store)
  : ApiResponse * etcd.Store :=
  match master_jobmgr.GetJob jobName c with
  | (inl err, c) =>
      if isErrJobNotFound err then (failure ApiJobNotExist "job does not exist", c)
      else (failure ApiFailure "failed to get job: ", c)
  | (inr job, c) => (success job, c)
  end.

(** [Server.killJob]. *)
Definition killJob (jobName : string) (c : etcd.Store)
  : ApiResponse * etcd.Store :=
  match master_jobmgr.KillJob jobName c with
  | (Some _, c) => (failure ApiJobExecFail "failed to kill job: ", c)
  | (None, c) => (mkApiResponse ApiSuccess "success" None, c)
  end.

(** [Server.disableJob]. *)
Definition disableJob (t1 t2 : Time) (jobName : string) (c : etcd.Store)
  : ApiResponse * etcd.Store :=
  match master_jobmgr.DisableJob t1 t2 jobName c with
  | (Some err, c) =>
      if isErrJobNotFound err then (failure ApiJobNotExist "job does not exist", c)
      else (failure ApiFailure "failed to disable job: ", c)
  | (None, c) => (mkApiResponse ApiSuccess "success" None, c)
  end.

(** [Server.enableJob]. *)
Definition enableJob (t1 t2 : Time) (jobName : string) (c : etcd.Store)
  : ApiResponse * etcd.Store :=
  match master_jobmgr.EnableJob t1 t2 jobName c with
  | (Some err, c) =>
      if isErrJobNotFound err then (failure ApiJobNotExist "job does not exist", c)
      else (failure ApiFailure "failed to enable job: ", c)
  | (None, c) => (mkApiResponse ApiSuccess "success" None, c)
  end.

End with_libs.

End api.

(** ** Package pkg/mongodb: the client and the log collection *)

Module mongodb.

Record Store := mkStore {
  collection : list JobLog;
  faults : list bool }.

Definition rpc (db : Store) : bool * Store :=
  match faults db with
  | [] => (true, db)
  | f :: fs => (negb f, mkStore (collection db) fs)
  end.

(** The filter [bson.M{}], narrowed to one job when a name is given. *)
Definition job_filter (jobName : string) (log : JobLog) : bool :=
  if String.eqb jobName "" then true else String.eqb (JobName log) jobName.

(** The order of [SetSort(startTime: -1)]. *)
Definition by_startTime_desc (a b : JobLog) : Prop := StartTime b <= StartTime a.

#[global] Instance by_startTime_desc_dec a b : Decision (by_startTime_desc a b).
Proof. unfold by_startTime_desc. apply _. Defined.

(** What the server does with [skip] and [limit]: a limit of zero means
    no limit. *)
Definition window (skip limit : Z) (logs : list JobLog) : list JobLog :=
  let rest := drop (Z.to_nat skip) logs in
  if limit =? 0 then rest else take (Z.to_nat (Z.abs limit)) rest.

(** [Client.FindJobLogs]: one round trip for the query (refused by the
    server when [skip] is negative), one to drain the cursor. *)
Definition FindJobLogs (jobName : string) (skip limit : Z)
  : M Store (list JobLog) := fun db =>
  let '(ok, db) := rpc db in
  if ok && (0 <=? skip) then
    let '(ok, db) := rpc db in
    if ok then
      (inr (window skip limit
              (merge_sort by_startTime_desc
                 (filter (fun l => job_filter jobName l = true) (collection db)))), db)
    else (inl (MongoError "cursor_all" LogCollectionName), db)
  else (inl (MongoError "find_job_logs" LogCollectionName), db).

(** [Client.CountJobLogs]. *)
Definition CountJobLogs (jobName : string) : M Store Z := fun db =>
  let '(ok, db) := rpc db in
  if ok then
    (inr (Z.of_nat (length (filter (fun l => job_filter jobName l = true) (collection db)))), db)
  else (inl (MongoError "count" LogCollectionName), db).

(** [Client.DeleteOldLogs]: drops the records that ended before [before]. *)
Definition DeleteOldLogs (before : Time) : M Store Z := fun db =>
  let '(ok, db) := rpc db in
  if ok then
    let kept := filter (fun l => ¬ (EndTime l < Unix before)) (collection db) in
    (inr (Z.of_nat (length (collection db)) - Z.of_nat (length kept)),
     mkStore kept (faults db))
  else (inl (MongoError "delete_old_logs" LogCollectionName), db).

(** [Client.InsertMany]. *)
Definition InsertMany (docs : list JobLog) : M Store unit := fun db =>
  let '(ok, db) := rpc db in
  if ok then (inr tt, mkStore (collection db ++ docs) (faults db))
  else (inl (MongoError "insert_many" LogCollectionName), db).

(** Modelled from the spec: [Client.FindJobLogsSince], which
    [LogManager.getLogsSince] calls, is not among the sources.  Following
    the description of the statistics query it returns the logs of the
    job (of all jobs when the name is empty) whose start time is at least
    [timestamp]. *)
Definition FindJobLogsSince (jobName : string) (timestamp : Z)
  : M Store (list JobLog) := fun db =>
  let '(ok, db) := rpc db in
  if ok then
    (inr (filter (fun l => job_filter jobName l = true ∧ timestamp <= StartTime l)
            (collection db)), db)
  else (inl (MongoError "find_job_logs_since" LogCollectionName), db).

End mongodb.

(** ** Package master/logmgr *)

Module logmgr.

(** Go's [float64] is IEEE 754 binary64: 53 bits of precision.  Values
    are the specification floats of the standard library. *)
Definition prec : Z := 53.
Definition emax : Z := 1024.

(** [float64(n)] for an integer [n]: the nearest double, ties to even. *)
Definition float64 (n : Z) : spec_float := binary_normalize prec emax n 0 false.

(** The quotient of two doubles, correctly rounded. *)
Definition float64_div (x y : spec_float) : spec_float := SFdiv prec emax x y.

(** [LogManager.ListLogs] returns the records, the total and the error. *)
Definition ListLogs (jobName : string) (page pageSize : Z) (db : mongodb.Store)
  : (list JobLog * Z * option error) * mongodb.Store :=
  let page := if page <=? 0 then DefaultPage else page in
  let pageSize := if pageSize <=? 0 then DefaultPageSize else pageSize in
  let pageSize := if pageSize >? MaxPageSize then MaxPageSize else pageSize in
  let skip := int64 ((page - 1) * pageSize) in
  let limit := pageSize in
  match mongodb.FindJobLogs jobName skip limit db with
  | (inl err, db) => (([], 0, Some err), db)
  | (inr logs, db) =>
      match mongodb.CountJobLogs jobName db with
      | (inl err, db) => ((logs, 0, Some err), db)
      | (inr total, db) => ((logs, total, None), db)
      end
  end.

(** [LogManager.GetJobLog]. *)
Definition GetJobLog (jobName : string) : M mongodb.Store JobLog :=
  logs <- mongodb.FindJobLogs jobName 0 1 ;;
  match logs with
  | [] => fail ErrJobNotFound
  | log :: _ => ret log
  end.

(** [LogManager.CleanExpiredLogs]; [now] is the reading of [time.Now()]. *)
Definition CleanExpiredLogs `{Calendar} (now : Time) (retentionDays : Z)
    (db : mongodb.Store)
  : option error * mongodb.Store :=
  let retentionDays := if retentionDays <=? 0 then 30 else retentionDays in
  let cutoffTime := AddDate_days now (- retentionDays) in
  match mongodb.DeleteOldLogs cutoffTime db with
  | (inl err, db) => (Some err, db)
  | (inr _, db) => (None, db)
  end.

(** The four accumulators of the loop of [GetLogStatistics]. *)
Record Counters := mkCounters {
  c_success : Z;
  c_fail : Z;
  c_timeout : Z;
  c_totalDuration : Z }.

Definition count_log (acc : Counters) (log : JobLog) : Counters :=
  let '(s, f) := if ExitCode log =? 0 then (c_success acc + 1, c_fail acc)
                 else (c_success acc, c_fail acc + 1) in
  let t := if IsTimeout log then c_timeout acc + 1 else c_timeout acc in
  let duration := int64 (EndTime log - StartTime log) in
  mkCounters s f t (int64 (c_totalDuration acc + duration)).

(** The map returned by [GetLogStatistics], one field per key. *)
Record Statistics := mkStatistics {
  totalCount : Z;
  successCount : Z;
  failCount : Z;
  timeoutCount : Z;
  avgDuration : spec_float;
  period : Z }.

(** [LogManager.getLogsSince]. *)
Definition getLogsSince (jobName : string) (timestamp : Z)
  : M mongodb.Store (list JobLog) :=
  mongodb.FindJobLogsSince jobName timestamp.

(** [LogManager.GetLogStatistics]; [now] is the reading of [time.Now()]. *)
Definition GetLogStatistics `{Calendar} (now : Time) (jobName : string) (days : Z)
  : M mongodb.Store Statistics :=
  let days := if days <=? 0 then 7 else days in
  let startTime := Unix (AddDate_days now (- days)) in
  logs <- getLogsSince jobName startTime ;;
  let acc := fold_left count_log logs (mkCounters 0 0 0 0) in
  let n := Z.of_nat (length logs) in
  let avg := if 0 <? n then float64_div (float64 (c_totalDuration acc)) (float64 n)
             else S754_zero false in
  ret (mkStatistics n (c_success acc) (c_fail acc) (c_timeout acc) avg days).

End logmgr.

(** ** Package master/api: the log handlers *)

Module log_handler.

(** The [data] of the answer of [listJobLogs]. *)
Record LogPage := mkLogPage {
  logs : list JobLog;
  total : Z;
  page : Z;
  size : Z }.

Record Response (A : Type) := mkResponse {
  Code : Z;
  Message : string;
  Data : option A }.

Arguments mkResponse {A} _ _ _.
Arguments Code {A} _.
Arguments Message {A} _.
Arguments Data {A} _.

(** [Server.listJobLogs]; [page] and [pageSize] are what [strconv.Atoi]
    made of the query parameters. *)
Definition listJobLogs (jobName : string) (page pageSize : Z) (db : mongodb.Store)
  : Response LogPage * mongodb.Store :=
  match logmgr.ListLogs jobName page pageSize db with
  | ((_, _, Some _), db) =>
      (mkResponse ApiDbError "failed to list job logs: " None, db)
  | ((logs, total, None), db) =>
      (mkResponse ApiSuccess "success" (Some (mkLogPage logs total page pageSize)), db)
  end.

(** [Server.getJobLog]. *)
Definition getJobLog (jobName : string) (db : mongodb.Store)
  : Response JobLog * mongodb.Store :=
  match logmgr.GetJobLog jobName db with
  | (inl err, db) =>
      if api.isErrJobNotFound err
      then (mkResponse ApiJobNotExist "no logs found for job" None, db)
      else (mkResponse ApiDbError "failed to get job log: " None, db)
  | (inr log, db) => (mkResponse ApiSuccess "success" (Some log), db)
  end.

End log_handler.

(** ** Package worker/jobmgr: the job cache of a worker *)

Module worker_jobmgr.

Inductive WatchEventType := EventTypePut | EventTypeDelete.

(** A [clientv3.Event]. *)
Record Event := mkEvent {
  Type_ : WatchEventType;
  KvKey : string;
  KvValue : string }.

Definition eventChanCap : nat := 1000.

Record JobManager := mkJobManager {
  jobsCache : gmap string Job;
  eventChan : list JobEvent }.

(** [event.Kv.Key[len(common.JobSaveDir):]], empty for a short key. *)
Definition extractJobName (key : string) : string :=
  if (String.length JobSaveDir <? String.length key)%nat
  then String.substring (String.length JobSaveDir)
         (String.length key - String.length JobSaveDir) key
  else "".

Section with_json.
Context `{Json}.

(** [JobManager.handleWatchEvent]. *)
Definition handleWatchEvent (event : Event) (jm : JobManager)
  : option JobEvent * JobManager :=
  let jobName := extractJobName (KvKey event) in
  match Type_ event with
  | EventTypePut =>
      match Unmarshal (KvValue event) with
      | None => (None, jm)
      | Some job =>
          (Some (mkJobEvent JobEventSave job),
           mkJobManager (<[Name job := job]> (jobsCache jm)) (eventChan jm))
      end
  | EventTypeDelete =>
      match jobsCache jm !! jobName with
      | Some job =>
          (Some (mkJobEvent JobEventDelete job),
           mkJobManager (delete jobName (jobsCache jm)) (eventChan jm))
      | None => (None, jm)
      end
  end.

(** The body of the watch loop for one event: handle it and push the
    resulting job event, dropping it when the channel is full. *)
Definition dispatchWatchEvent (event : Event) (jm : JobManager) : JobManager :=
  match handleWatchEvent event jm with
  | (Some jobEvent, jm) =>
      if (length (eventChan jm) <? eventChanCap)%nat
      then mkJobManager (jobsCache jm) (eventChan jm ++ [jobEvent])
      else jm
  | (None, jm) => jm
  end.

(** [JobManager.loadJobs]: every value that decodes is cached under the
    name of its job. *)
Definition loadJobs (jm : JobManager) (c : etcd.Store)
  : option error * JobManager * etcd.Store :=
  match etcd.GetWithPrefix JobSaveDir c with
  | (inl err, c) => (Some err, jm, c)
  | (inr kvs, c) =>
      (None,
       fold_left
         (fun jm kv =>
            match Unmarshal (etcd.Value kv) with
            | None => jm
            | Some job =>
                mkJobManager (<[Name job := job]> (jobsCache jm)) (eventChan jm)
            end)
         kvs jm,
       c)
  end.

End with_json.

(** [JobManager.GetJob]. *)
Definition GetJob (jobName : string) (jm : JobManager) : option Job :=
  jobsCache jm !! jobName.

(** [JobManager.ListJobs]: the cached jobs, in the order of [Range]. *)
Definition ListJobs (jm : JobManager) : list Job :=
  (map_to_list (jobsCache jm)).*2.

End worker_jobmgr.

(** ** Package worker/executor *)

Module executor.

(** The error of [cmd.Run()]: an [*exec.ExitError] carries the exit code
    of the child, any other error (the shell could not be started, an
    I/O failure) only its text. *)
Inductive RunError :=
| ExitError (exitCode : Z) (text : string)
| OtherError (text : string).

(** [ctx.Err()]. *)
Inductive CtxErr := DeadlineExceeded | Canceled.

(** What the goroutine observes of the child: [Exited0] when [cmd.Run()]
    returns [nil]; otherwise the error and, read in that branch only, the
    state of the cancellation scope. *)
Inductive Outcome :=
| Exited0
| Failed (err : RunError) (ctxErr : option CtxErr).

Definition errorText (err : RunError) : string :=
  match err with
  | ExitError _ text => text
  | OtherError text => text
  end.

Definition jobResultsCap : nat := 1000.

(** The result channel and the goroutines blocked on sending to it. *)
Record Executor := mkExecutor {
  jobResults : list JobExecuteResult;
  parked : list JobExecuteResult }.

Definition NewExecutor : Executor := mkExecutor [] [].

(** [e.jobResults <- result]: the sender waits while the buffer is full. *)
Definition send (result : JobExecuteResult) (e : Executor) : Executor :=
  if (length (jobResults e) <? jobResultsCap)%nat
  then mkExecutor (jobResults e ++ [result]) (parked e)
  else mkExecutor (jobResults e) (parked e ++ [result]).

(** [<-e.jobResults]: the oldest result; a waiting sender then proceeds. *)
Definition recv (e : Executor) : option (JobExecuteResult * Executor) :=
  match jobResults e with
  | [] => None
  | r :: rest =>
      match parked e with
      | [] => Some (r, mkExecutor rest [])
      | p :: ps => Some (r, mkExecutor (rest ++ [p]) ps)
      end
  end.

(** The result built by the goroutine of [ExecuteJob]: [startTime] and
    [endTime] are its two clock readings, [output] the captured standard
    output. *)
Definition buildResult (info : JobExecuteInfo) (startTime endTime : Time)
    (output : string) (o : Outcome) : JobExecuteResult :=
  let name := Name (InfoJob info) in
  match o with
  | Failed err ctxErr =>
      match ctxErr with
      | Some DeadlineExceeded =>
          mkJobExecuteResult name output "job execution timed out"
            startTime endTime (-1) true
      | _ =>
          match err with
          | ExitError code _ =>
              mkJobExecuteResult name output (errorText err)
                startTime endTime code false
          | OtherError _ =>
              mkJobExecuteResult name output (errorText err)
                startTime endTime (-1) false
          end
      end
  | Exited0 =>
      mkJobExecuteResult name output "" startTime endTime 0 false
  end.

(** [Executor.ExecuteJob], the goroutine run to its end. *)
Definition ExecuteJob (info : JobExecuteInfo) (startTime endTime : Time)
    (output : string) (o : Outcome) (e : Executor) : Executor :=
  send (buildResult info startTime endTime output o) e.

(** [BuildJobLog]; [workerID] is [config.GlobalConfig.WorkerID]. *)
Definition BuildJobLog (workerID : string) (result : JobExecuteResult)
    (info : JobExecuteInfo) : JobLog :=
  mkJobLog (ResJobName result) (Command (InfoJob info)) (ResOutput result)
    (ResError result) (Unix (PlanTime info)) (Unix (RealTime info))
    (Unix (ResStartTime result)) (Unix (ResEndTime result))
    (ResExitCode result) (ResIsTimeout result) workerID.

End executor.

(** ** Package worker/logsink *)

Module logsink.

Inductive Level := InfoLevel | WarnLevel | ErrorLevel.

(** A record written through the zap logger. *)
Record Entry := mkEntry {
  level : Level;
  message : string;
  entryJobName : string }.

Definition logChanCap : nat := 1000.

Record LogSink := mkLogSink {
  logChan : list JobLog;
  logBatch : list JobLog;
  batchSize : Z;
  logger : list Entry }.

(** [LogSink.Append]: a [select] with a [default] branch. *)
Definition Append (jobLog : JobLog) (l : LogSink) : LogSink :=
  if (length (logChan l) <? logChanCap)%nat
  then mkLogSink (logChan l ++ [jobLog]) (logBatch l) (batchSize l) (logger l)
  else mkLogSink (logChan l) (logBatch l) (batchSize l)
         (logger l ++ [mkEntry ErrorLevel "log channel is full, log discarded"
                         (JobName jobLog)]).

(** [LogSink.commitLogs]: the batch is emptied whether or not the insert
    succeeds. *)
Definition commitLogs (l : LogSink) (db : mongodb.Store) : LogSink * mongodb.Store :=
  match logBatch l with
  | [] => (l, db)
  | batch =>
      let '(r, db) := mongodb.InsertMany batch db in
      let entry := match r with
                   | inl _ => mkEntry ErrorLevel "failed to commit logs" ""
                   | inr _ => mkEntry InfoLevel "committed logs" ""
                   end in
      (mkLogSink (logChan l) [] (batchSize l) (logger l ++ [entry]), db)
  end.

(** The loop of [startWorker] when a log arrives: it joins the batch,
    which is committed once it has reached the batch size. *)
Definition onLog (log : JobLog) (l : LogSink) (db : mongodb.Store)
  : LogSink * mongodb.Store :=
  let l := mkLogSink (logChan l) (logBatch l ++ [log]) (batchSize l) (logger l) in
  if batchSize l <=? Z.of_nat (length (logBatch l)) then commitLogs l db
  else (l, db).

(** The loop of [startWorker] when the commit timer fires. *)
Definition onTimer (l : LogSink) (db : mongodb.Store) : LogSink * mongodb.Store :=
  if 0 <? Z.of_nat (length (logBatch l)) then commitLogs l db else (l, db).

(** One receive on the ingress channel, followed by [onLog]. *)
Definition receive (l : LogSink) (db : mongodb.Store)
  : option (LogSink * mongodb.Store) :=
  match logChan l with
  | [] => None
  | log :: rest =>
      Some (onLog log (mkLogSink rest (logBatch l) (batchSize l) (logger l)) db)
  end.

(** [LogSink.Stop]. *)
Definition Stop (l : LogSink) (db : mongodb.Store) : LogSink * mongodb.Store :=
  if 0 <? Z.of_nat (length (logBatch l)) then commitLogs l db else (l, db).

(** The loop run until the ingress channel is empty; [n] bounds the
    number of receives. *)
Fixpoint drain (n : nat) (l : LogSink) (db : mongodb.Store)
  : LogSink * mongodb.Store :=
  match n with
  | O => (l, db)
  | S n =>
      match receive l db with
      | None => (l, db)
      | Some (l, db) => drain n l db
      end
  end.

(** [LogSink.CleanExpiredLogs]: as in the log manager, but the error is
    only logged. *)
Definition CleanExpiredLogs `{Calendar} (now : Time) (retentionDays : Z)
    (db : mongodb.Store)
  : mongodb.Store :=
  let retentionDays := if retentionDays <=? 0 then 30 else retentionDays in
  let cutoffTime := AddDate_days now (- retentionDays) in
  (mongodb.DeleteOldLogs cutoffTime db).2.

End logsink.

(** ** Packages worker/scheduler and cmd/worker *)

Module scheduler.

Section with_cron.
Context `{Cronexpr}.

Record JobSchedulePlan := mkJobSchedulePlan {
  PlanJob : Job;
  Expr : Expression;
  NextTime : Time }.

(** The two tables of the scheduler. *)
Record Scheduler := mkScheduler {
  jobPlans : gmap string JobSchedulePlan;
  jobExecuting : gmap string JobExecuteInfo }.

Definition NewScheduler : Scheduler := mkScheduler ∅ ∅.

(** [Scheduler.handleJobEvent]; [now] is the reading of [time.Now()]. *)
Definition handleJobEvent (now : Time) (event : JobEvent) (s : Scheduler)
  : Scheduler :=
  if EventType event =? JobEventSave then
    let job := EventJob event in
    if Disabled job then
      match jobPlans s !! Name job with
      | Some _ => mkScheduler (delete (Name job) (jobPlans s)) (jobExecuting s)
      | None => s
      end
    else
      match Parse (CronExpr job) with
      | None => s
      | Some expr =>
          let schedPlan := mkJobSchedulePlan job expr (Next expr now) in
          mkScheduler (<[Name job := schedPlan]> (jobPlans s)) (jobExecuting s)
      end
  else if EventType event =? JobEventDelete then
    match jobPlans s !! Name (EventJob event) with
    | Some _ =>
        mkScheduler (delete (Name (EventJob event)) (jobPlans s)) (jobExecuting s)
    | None => s
    end
  else s.

(** [Scheduler.handleJobResult]. *)
Definition handleJobResult (result : JobExecuteResult) (s : Scheduler)
  : Scheduler :=
  mkScheduler (jobPlans s) (delete (ResJobName result) (jobExecuting s)).

(** [Scheduler.GetExecutingJobs] hands out the table itself. *)
Definition GetExecutingJobs (s : Scheduler) : gmap string JobExecuteInfo :=
  jobExecuting s.

(** The body of the loop of [Scheduler.loadJobs] for one job; [now] gives
    the clock reading taken for the job of each name. *)
Definition loadJob (now : string -> Time) (s : Scheduler) (job : Job) : Scheduler :=
  if Disabled job then s
  else
    match Parse (CronExpr job) with
    | None => s
    | Some expr =>
        let schedPlan := mkJobSchedulePlan job expr (Next expr (now (Name job))) in
        mkScheduler (<[Name job := schedPlan]> (jobPlans s)) (jobExecuting s)
    end.

(** [Scheduler.loadJobs] over the jobs listed by the job manager. *)
Definition loadJobs (now : string -> Time) (jobs : list Job) (s : Scheduler)
  : Scheduler :=
  fold_left (loadJob now) jobs s.

(** [Scheduler.tryStartJob]; [ttl] is the configured lock TTL and
    [realTime] the clock reading.  The third component is the execution
    handed to [Executor.ExecuteJob], if any. *)
Definition tryStartJob (ttl : Z) (realTime : Time) (plan : JobSchedulePlan)
    (s : Scheduler) (c : etcd.Store)
  : Scheduler * etcd.Store * option JobExecuteInfo :=
  match jobExecuting s !! Name (PlanJob plan) with
  | Some _ => (s, c, None)
  | None =>
      let jobLock := joblock.NewJobLock (Name (PlanJob plan)) in
      match joblock.TryLock ttl jobLock c with
      | (Some _, _, c) => (s, c, None)
      | (None, jobLock, c) =>
          let jobExecuteInfo :=
            mkJobExecuteInfo (PlanJob plan) (NextTime plan) realTime in
          let s := mkScheduler (jobPlans s)
                     (<[Name (PlanJob plan) := jobExecuteInfo]> (jobExecuting s)) in
          let '(_, c) := joblock.Unlock jobLock c in
          (s, c, Some jobExecuteInfo)
      end
  end.

(** The body of the loop of [Scheduler.trySchedule] for the plan stored
    under [name]; the executions started so far are collected. *)
Definition tickPlan (ttl : Z) (now : Time) (realTime : string -> Time)
    (st : Scheduler * etcd.Store * list JobExecuteInfo)
    (entry : string * JobSchedulePlan)
  : Scheduler * etcd.Store * list JobExecuteInfo :=
  let '(s, c, started) := st in
  let '(name, plan) := entry in
  if NextTime plan <=? now then
    let '(s, c, d) := tryStartJob ttl (realTime name) plan s c in
    let plan := mkJobSchedulePlan (PlanJob plan) (Expr plan) (Next (Expr plan) now) in
    (mkScheduler (<[name := plan]> (jobPlans s)) (jobExecuting s), c,
     started ++ option_list d)
  else st.

(** [Scheduler.trySchedule] at time [now], visiting the plans in the
    order of the map. *)
Definition trySchedule (ttl : Z) (now : Time) (realTime : string -> Time)
    (s : Scheduler) (c : etcd.Store)
  : Scheduler * etcd.Store * list JobExecuteInfo :=
  fold_left (tickPlan ttl now realTime) (map_to_list (jobPlans s)) (s, c, []).

End with_cron.

End scheduler.

Module worker.

Section with_cron.
Context `{Cronexpr}.

(** The parts of [workerContext] that take part in result handling. *)
Record workerContext := mkWorkerContext {
  WorkerID : string;
  executor_ : executor.Executor;
  scheduler_ : scheduler.Scheduler;
  logSink : logsink.LogSink }.

(** The body of the loop of [handleExecuteResults] for one result. *)
Definition handleExecuteResult (result : JobExecuteResult) (w : workerContext)
  : workerContext :=
  match scheduler.GetExecutingJobs (scheduler_ w) !! ResJobName result with
  | Some jobInfo =>
      let jobLog := executor.BuildJobLog (WorkerID w) result jobInfo in
      mkWorkerContext (WorkerID w) (executor_ w) (scheduler_ w)
        (logsink.Append jobLog (logSink w))
  | None => w
  end.

(** Two goroutines receive from the one result channel of the executor:
    the loop of the scheduler ([scheduleLoop], which got the channel from
    [exec.GetResultChan()] in [NewScheduler]) and [handleExecuteResults]
    (started by [startWorker]).  A value sent on a Go channel is received
    by exactly one of them. *)
Inductive receiver := scheduleLoop | handleExecuteResults.

(** What the worker does with a result, by the goroutine that got it. *)
Definition onResult (who : receiver) (result : JobExecuteResult)
    (w : workerContext) : workerContext :=
  match who with
  | scheduleLoop =>
      mkWorkerContext (WorkerID w) (executor_ w)
        (scheduler.handleJobResult result (scheduler_ w)) (logSink w)
  | handleExecuteResults => handleExecuteResult result w
  end.

(** One receive on the result channel, followed by its handling. *)
Definition receive (who : receiver) (w : workerContext) : option workerContext :=
  match executor.recv (executor_ w) with
  | None => None
  | Some (result, e) =>
      Some (onResult who result
              (mkWorkerContext (WorkerID w) e (scheduler_ w) (logSink w)))
  end.

End with_cron.

End worker.

(** ** Executable stand-ins for the libraries

    Small instances of the three interfaces, used to run the model on
    concrete inputs: a line-oriented codec for jobs and cron readers that
    look at the number of fields only. *)

Module demo.

Definition nl : string := String (Ascii.ascii_of_nat 10) EmptyString.

Fixpoint split (sep : Ascii.ascii) (s : string) : list string :=
  match s with
  | EmptyString => [EmptyString]
  | String ch rest =>
      if Ascii.eqb ch sep then EmptyString :: split sep rest
      else match split sep rest with
           | [] => [String ch EmptyString]
           | w :: ws => String ch w :: ws
           end
  end.

Definition show_Z (z : Z) : string := NilZero.string_of_int (Z.to_int z).

Definition read_Z (s : string) : option Z :=
  Z.of_int <$> NilZero.int_of_string s.

Definition show_bool (b : bool) : string := if b then "true" else "false".

Definition read_bool (s : string) : option bool :=
  if String.eqb s "true" then Some true
  else if String.eqb s "false" then Some false
  else None.

Definition marshal (j : Job) : error + string :=
  inr (Name j +:+ nl +:+ Command j +:+ nl +:+ CronExpr j +:+ nl +:+
       show_Z (Timeout j) +:+ nl +:+ show_bool (Disabled j) +:+ nl +:+
       show_Z (CreatedAt j) +:+ nl +:+ show_Z (UpdatedAt j)).

Definition unmarshal (s : string) : option Job :=
  match split (Ascii.ascii_of_nat 10) s with
  | [n; c; e; t; d; ca; ua] =>
      t ← read_Z t; d ← read_bool d; ca ← read_Z ca; ua ← read_Z ua;
      Some (mkJob n c e t d ca ua)
  | _ => None
  end.

#[local] Instance json : Json := {| Marshal := marshal; Unmarshal := unmarshal |}.

(** The fields of a cron expression. *)
Definition fields (s : string) : list string :=
  filter (fun w => w ≠ EmptyString) (split (Ascii.ascii_of_nat 32) s).

(** The API parser is configured for six fields. *)
#[local] Instance cron_validator : CronValidator :=
  {| cron_Parse := fun s => (length (fields s) =? 6)%nat |}.

(** cronexpr wants at least five fields; here every accepted expression
    fires at each whole second. *)
#[local] Instance cronexpr : Cronexpr :=
  {| Expression := unit;
     Parse := fun s => if (5 <=? length (fields s))%nat then Some tt else None;
     Next := fun _ t => (t `div` 1000000000 + 1) * 1000000000 |}.

(** UTC, which has no clock changes: a day is 86400 seconds. *)
#[local] Instance utc : Calendar :=
  {| AddDate_days := fun t days => t + days * 86400 * 1000000000 |}.

Definition store0 : etcd.Store := etcd.mkStore ∅ ∅ 1 [].

Definition job1 : Job := mkJob "backup" "echo hi" "*/5 * * * * *" 10 false 0 0.

(** The store after [job1] was saved at second 5. *)
Definition stored_job1 : Job := mkJob "backup" "echo hi" "*/5 * * * * *" 10 false 5 5.

Definition data1 : string :=
  match marshal stored_job1 with inr s => s | inl _ => "" end.

Definition kv1 : etcd.KeyValue := etcd.mkKeyValue "/cron/jobs/backup" data1 0 2 2.

Definition store1 : etcd.Store := etcd.kv_put "/cron/jobs/backup" data1 0 store0.

(** A log collection: two runs of one job, one run of another. *)
Definition log_ok : JobLog :=
  mkJobLog "backup" "echo hi" "hi" "" 100 100 100 103 0 false "w1".

Definition log_failed : JobLog :=
  mkJobLog "backup" "echo hi" "" "exit status 1" 200 200 200 201 1 false "w1".

Definition log_timed_out : JobLog :=
  mkJobLog "sync" "sleep 9" "" "job execution timed out" 300 300 300 305 (-1) true "w1".

Definition logdb : mongodb.Store :=
  mongodb.mkStore [log_ok; log_failed; log_timed_out] [].

(** A scheduler that has a plan for [job1] and is running it. *)
Definition plan1 : @scheduler.JobSchedulePlan cronexpr :=
  scheduler.mkJobSchedulePlan job1 tt 6000000000.

Definition info1 : JobExecuteInfo := mkJobExecuteInfo job1 6000000000 6100000000.

Definition sched1 : @scheduler.Scheduler cronexpr :=
  scheduler.mkScheduler {["backup" := plan1]} {["backup" := info1]}.

Definition result1 : JobExecuteResult :=
  mkJobExecuteResult "backup" "hi" "" 6200000000 6300000000 0 false.

Definition worker1 : @worker.workerContext cronexpr :=
  worker.mkWorkerContext "w1" executor.NewExecutor sched1
    (logsink.mkLogSink [] [] 100 []).

(** The same job saved again with an expression that has no fields. *)
Definition bad_cron_event : JobEvent :=
  mkJobEvent JobEventSave (mkJob "backup" "echo hi" "" 10 false 0 0).



(** The request body that carries [job1]. *)
Definition body1 : string :=
  match marshal job1 with inr s => s | inl _ => "" end.

End demo.

(** * Properties *)

(** ** The log sink *)

(** C9: [LogSink.Append] never blocks.  It returns in both cases of its
    [select]: when the ingress channel has free capacity the log is put at
    the end of the channel and nothing is logged; when the channel is full
    the log is dropped, the channel keeps its contents, and one record
    saying so is written through the logger (at error level).  The batch
    is not touched. *)
Theorem Append_never_blocks (jobLog : JobLog) (l : logsink.LogSink) :
  ((length (logsink.logChan l) < logsink.logChanCap)%nat →
     logsink.logChan (logsink.Append jobLog l) = logsink.logChan l ++ [jobLog] ∧
     logsink.logger (logsink.Append jobLog l) = logsink.logger l) ∧
  ((logsink.logChanCap ≤ length (logsink.logChan l))%nat →
     logsink.logChan (logsink.Append jobLog l) = logsink.logChan l ∧
     logsink.logger (logsink.Append jobLog l) =
       logsink.logger l ++
         [logsink.mkEntry logsink.ErrorLevel "log channel is full, log discarded"
            (JobName jobLog)]) ∧
  logsink.logBatch (logsink.Append jobLog l) = logsink.logBatch l ∧
  logsink.batchSize (logsink.Append jobLog l) = logsink.batchSize l.
Proof.
  unfold logsink.Append.
  destruct (Nat.ltb_spec (length (logsink.logChan l)) logsink.logChanCap) as [Hlt|Hge];
    simpl; repeat split; try done; intros; lia.
Qed.

(** ** The etcd client *)

Lemma rpc_no_faults (c : etcd.Store) :
  etcd.faults c = [] → etcd.rpc c = (true, c).
Proof. unfold etcd.rpc. by intros ->. Qed.

Lemma lease_grant_fresh (ttl : Z) (c : etcd.Store) :
  etcd.leases c !! (etcd.lease_grant ttl c).1 = None.
Proof. simpl. apply not_elem_of_dom, is_fresh. Qed.

(** C3: with etcd reachable, [TryAcquireLock(key, ttl)] decides on the
    create revision of the key, which is 0 exactly when the key does not
    exist.  When the key does not exist the call returns the id of a
    lease that did not exist before and is now granted for [ttl], and the
    store holds the key, with an empty value, bound to that lease, every
    other key being as before.  When the key exists the call fails with
    [ErrLockAlreadyAcquired] and the keys of the store are unchanged. *)
Theorem TryAcquireLock_atomic (lockKey : string) (ttl : Z) (c : etcd.Store) :
  etcd.faults c = [] →
  (etcd.createRevision c lockKey = 0 ↔ etcd.kvs c !! lockKey = None) ∧
  (etcd.kvs c !! lockKey = None →
     ∃ (id : positive) (c' : etcd.Store),
       etcd.TryAcquireLock lockKey ttl c = (inr (Z.pos id), c') ∧
       etcd.leases c !! id = None ∧
       etcd.leases c' !! id = Some ttl ∧
       etcd.kvs c' =
         <[lockKey := etcd.mkKeyValue lockKey "" (Z.pos id)
                        (etcd.revision c + 1) (etcd.revision c + 1)]> (etcd.kvs c)) ∧
  (is_Some (etcd.kvs c !! lockKey) →
     ∃ c' : etcd.Store,
       etcd.TryAcquireLock lockKey ttl c = (inl ErrLockAlreadyAcquired, c') ∧
       etcd.kvs c' = etcd.kvs c).
Proof.
  intros Hf.
  assert (Hrev : etcd.createRevision c lockKey = 0 ↔ etcd.kvs c !! lockKey = None).
  { unfold etcd.createRevision. destruct (etcd.kvs c !! lockKey); split; done. }
  split; [exact Hrev|].
  pose proof (lease_grant_fresh ttl c) as Hfresh.
  destruct c as [kvs leases rev faults]; simpl in *; subst faults.
  unfold etcd.TryAcquireLock, etcd.rpc, etcd.lease_grant, etcd.createRevision,
    etcd.kv_put; simpl.
  split.
  - intros Hnone. rewrite Hnone; simpl.
    eexists _, _. split; [reflexivity|]. simpl.
    split; [exact Hfresh|]. split; [apply lookup_insert_eq|reflexivity].
  - intros [kv Hkv]. rewrite Hkv; simpl.
    eexists. split; reflexivity.
Qed.

Lemma TryAcquireLock_atomic_witness :
  etcd.faults demo.store0 = [] ∧
  ∃ (id : positive) (c' : etcd.Store),
    etcd.TryAcquireLock "/cron/lock/backup" 5 demo.store0 = (inr (Z.pos id), c') ∧
    etcd.leases c' !! id = Some 5.
Proof.
  split; [reflexivity|].
  destruct (TryAcquireLock_atomic "/cron/lock/backup" 5 demo.store0 eq_refl)
    as (_ & Hnew & _).
  destruct (Hnew eq_refl) as (id & c' & Hcall & _ & Hlease & _).
  exists id, c'. split; assumption.
Defined.

(** ** The job registry of the master *)

Section registry.
Context `{Json} `{CronValidator}.

Lemma Put_no_faults (key value : string) (c : etcd.Store) :
  etcd.faults c = [] →
  etcd.Put key value c = (inr tt, etcd.kv_put key value 0 c).
Proof. intros Hf. unfold etcd.Put. by rewrite rpc_no_faults. Qed.

Lemma Get_no_faults (key : string) (c : etcd.Store) :
  etcd.faults c = [] →
  etcd.Get key c = (inr (option_list (etcd.kvs c !! key)), c).
Proof. intros Hf. unfold etcd.Get. by rewrite rpc_no_faults. Qed.



Lemma kv_put_faults (key value : string) (lease : Z) (c : etcd.Store) :
  etcd.faults (etcd.kv_put key value lease c) = etcd.faults c.
Proof. reflexivity. Qed.

(** What [SaveJob] does on the success path, for any job at all. *)
Lemma SaveJob_writes (now : Time) (job : Job) (data : string) (c : etcd.Store) :
  etcd.faults c = [] →
  Marshal (mkJob (Name job) (Command job) (CronExpr job) (Timeout job)
             (Disabled job)
             (if CreatedAt job =? 0 then Unix now else CreatedAt job)
             (Unix now)) = inr data →
  master_jobmgr.SaveJob now job c =
    (None,
     mkJob (Name job) (Command job) (CronExpr job) (Timeout job) (Disabled job)
       (if CreatedAt job =? 0 then Unix now else CreatedAt job) (Unix now),
     etcd.kv_put (JobSaveDir +:+ Name job) data 0 c).
Proof.
  intros Hf Hm. unfold master_jobmgr.SaveJob.
  assert (Hjob : set_UpdatedAt (Unix now)
            (if CreatedAt job =? 0 then set_CreatedAt (Unix now) job else job) =
          mkJob (Name job) (Command job) (CronExpr job) (Timeout job)
            (Disabled job)
            (if CreatedAt job =? 0 then Unix now else CreatedAt job) (Unix now)).
  { destruct job; simpl. by destruct (_ =? 0). }
  rewrite Hjob, Hm; simpl. by rewrite Put_no_faults.
Qed.


End registry.



Section enable_disable.
Context `{Json}.

Lemma GetJob_stored (name : string) (kv : etcd.KeyValue) (job : Job) (c : etcd.Store) :
  etcd.faults c = [] →
  etcd.kvs c !! (JobSaveDir +:+ name) = Some kv →
  Unmarshal (etcd.Value kv) = Some job →
  master_jobmgr.GetJob name c = (inr job, c).
Proof.
  intros Hf Hkv Hun. unfold master_jobmgr.GetJob, bind.
  rewrite Get_no_faults, Hkv by done. simpl. by rewrite Hun.
Qed.

(** The read-modify-write shared by [DisableJob] and [EnableJob]. *)
Lemma toggle_then_read (flag : bool) (t1 t2 : Time) (name : string)
    (kv : etcd.KeyValue) (job : Job) (c : etcd.Store) :
  etcd.faults c = [] →
  etcd.kvs c !! (JobSaveDir +:+ name) = Some kv →
  Unmarshal (etcd.Value kv) = Some job →
  Name job = name →
  CreatedAt job ≠ 0 →
  (∃ data : string,
     Marshal (mkJob (Name job) (Command job) (CronExpr job) (Timeout job)
                flag (CreatedAt job) (Unix t2)) = inr data ∧
     Unmarshal data =
       Some (mkJob (Name job) (Command job) (CronExpr job) (Timeout job)
               flag (CreatedAt job) (Unix t2))) →
  ∃ c' : etcd.Store,
    (let '(err, _, c1) :=
       master_jobmgr.SaveJob t2
         (set_UpdatedAt (Unix t1) (set_Disabled flag job)) c in (err, c1))
      = (None, c') ∧
    master_jobmgr.GetJob name c' =
      (inr (mkJob (Name job) (Command job) (CronExpr job) (Timeout job)
              flag (CreatedAt job) (Unix t2)), c').
Proof.
  intros Hf Hkv Hun Hname Hcr (data & Hm & Hum).
  destruct job as [n cmd expr tmo dis cr up]; simpl in *; subst n.
  assert (Hz : (cr =? 0) = false) by by apply Z.eqb_neq.
  rewrite (SaveJob_writes t2 _ data c Hf); simpl; [|by rewrite Hz].
  eexists. split; [reflexivity|].
  eapply GetJob_stored.
  - by rewrite kv_put_faults.
  - unfold etcd.kv_put; simpl. apply lookup_insert_eq.
  - exact Hum.
Qed.

(** C10: let a job be stored under its own name with a nonzero
    [createdAt], etcd be reachable and the job survive a JSON round trip.
    Then [DisableJob(name)] and [EnableJob(name)] succeed, and the job
    read back afterwards has the name, command, cron expression, timeout
    and [createdAt] of the job read before; its [Disabled] flag is [true]
    after [DisableJob] and [false] after [EnableJob], and its [updatedAt]
    is the unix time of the write. *)
Theorem DisableJob_EnableJob_frame (t1 t2 : Time) (name : string)
    (kv : etcd.KeyValue) (job : Job) (c : etcd.Store) :
  etcd.faults c = [] →
  etcd.kvs c !! (JobSaveDir +:+ name) = Some kv →
  Unmarshal (etcd.Value kv) = Some job →
  Name job = name →
  CreatedAt job ≠ 0 →
  (∀ flag : bool, ∃ data : string,
     Marshal (mkJob (Name job) (Command job) (CronExpr job) (Timeout job)
                flag (CreatedAt job) (Unix t2)) = inr data ∧
     Unmarshal data =
       Some (mkJob (Name job) (Command job) (CronExpr job) (Timeout job)
               flag (CreatedAt job) (Unix t2))) →
  master_jobmgr.GetJob name c = (inr job, c) ∧
  (∃ (c' : etcd.Store) (job' : Job),
     master_jobmgr.DisableJob t1 t2 name c = (None, c') ∧
     master_jobmgr.GetJob name c' = (inr job', c') ∧
     Disabled job' = true ∧ UpdatedAt job' = Unix t2 ∧
     Name job' = Name job ∧ Command job' = Command job ∧
     CronExpr job' = CronExpr job ∧ Timeout job' = Timeout job ∧
     CreatedAt job' = CreatedAt job) ∧
  (∃ (c' : etcd.Store) (job' : Job),
     master_jobmgr.EnableJob t1 t2 name c = (None, c') ∧
     master_jobmgr.GetJob name c' = (inr job', c') ∧
     Disabled job' = false ∧ UpdatedAt job' = Unix t2 ∧
     Name job' = Name job ∧ Command job' = Command job ∧
     CronExpr job' = CronExpr job ∧ Timeout job' = Timeout job ∧
     CreatedAt job' = CreatedAt job).
Proof.
  intros Hf Hkv Hun Hname Hcr Hjson.
  pose proof (GetJob_stored name kv job c Hf Hkv Hun) as Hget.
  split; [exact Hget|]. split.
  - destruct (toggle_then_read true t1 t2 name kv job c Hf Hkv Hun Hname Hcr
                (Hjson true)) as (c' & Hsave & Hread).
    exists c'. eexists. unfold master_jobmgr.DisableJob. rewrite Hget.
    split; [exact Hsave|]. split; [exact Hread|]. by simpl.
  - destruct (toggle_then_read false t1 t2 name kv job c Hf Hkv Hun Hname Hcr
                (Hjson false)) as (c' & Hsave & Hread).
    exists c'. eexists. unfold master_jobmgr.EnableJob. rewrite Hget.
    split; [exact Hsave|]. split; [exact Hread|]. by simpl.
Qed.

End enable_disable.

Lemma DisableJob_EnableJob_frame_witness :
  etcd.faults demo.store1 = [] ∧
  etcd.kvs demo.store1 !! (JobSaveDir +:+ "backup") = Some demo.kv1 ∧
  @Unmarshal demo.json (etcd.Value demo.kv1) = Some demo.stored_job1 ∧
  CreatedAt demo.stored_job1 ≠ 0 ∧
  ∃ (c' : etcd.Store) (job' : Job),
    @master_jobmgr.DisableJob demo.json 7000000000 8000000000 "backup" demo.store1
      = (None, c') ∧
    @master_jobmgr.GetJob demo.json "backup" c' = (inr job', c') ∧
    Disabled job' = true ∧ Command job' = "echo hi" ∧ CreatedAt job' = 5.
Proof.
  assert (Hkv : etcd.kvs demo.store1 !! (JobSaveDir +:+ "backup") = Some demo.kv1)
    by (vm_compute; reflexivity).
  assert (Hcr : CreatedAt demo.stored_job1 ≠ 0) by (simpl; lia).
  split; [reflexivity|]. split; [exact Hkv|]. split; [reflexivity|].
  split; [exact Hcr|].
  destruct (@DisableJob_EnableJob_frame demo.json 7000000000 8000000000 "backup"
              demo.kv1 demo.stored_job1 demo.store1 eq_refl Hkv eq_refl eq_refl Hcr)
    as (_ & (c' & job' & Hdis & Hget & Hflag & _ & _ & Hcmd & _ & _ & Hcreated) & _).
  { intros flag. eexists. split; [reflexivity|]. by destruct flag. }
  exists c', job'. repeat split; assumption.
Defined.

(** ** The log manager *)

Lemma int64_id (z : Z) : is_int64 z → int64 z = z.
Proof.
  unfold is_int64, int64. intros Hz.
  rewrite Z.mod_small; lia.
Qed.



Lemma mongo_rpc_no_faults (db : mongodb.Store) :
  mongodb.faults db = [] → mongodb.rpc db = (true, db).
Proof. unfold mongodb.rpc. by intros ->. Qed.

Lemma filter_all_jobs (logs : list JobLog) :
  filter (fun l => mongodb.job_filter "" l = true) logs = logs.
Proof.
  induction logs as [|l logs IH]; [done|].
  rewrite filter_cons_True by done. by rewrite IH.
Qed.

Lemma FindJobLogs_no_faults (jobName : string) (skip limit : Z) (db : mongodb.Store) :
  mongodb.faults db = [] → 0 <= skip → 0 < limit →
  mongodb.FindJobLogs jobName skip limit db =
    (inr (take (Z.to_nat limit)
            (drop (Z.to_nat skip)
               (merge_sort mongodb.by_startTime_desc
                  (filter (fun l => mongodb.job_filter jobName l = true)
                     (mongodb.collection db))))), db).
Proof.
  intros Hf Hskip Hlimit. unfold mongodb.FindJobLogs.
  rewrite mongo_rpc_no_faults by done.
  destruct (Z.leb_spec 0 skip) as [_|?]; [|lia]. simpl.
  rewrite mongo_rpc_no_faults by done.
  unfold mongodb.window.
  destruct (Z.eqb_spec limit 0) as [?|_]; [lia|].
  by rewrite Z.abs_eq by lia.
Qed.

Lemma CountJobLogs_no_faults (jobName : string) (db : mongodb.Store) :
  mongodb.faults db = [] →
  mongodb.CountJobLogs jobName db =
    (inr (Z.of_nat (length (filter (fun l => mongodb.job_filter jobName l = true)
                              (mongodb.collection db)))), db).
Proof.
  intros Hf. unfold mongodb.CountJobLogs. by rewrite mongo_rpc_no_faults.
Qed.

(** C6: [ListLogs(jobName, page, pageSize)], with MongoDB reachable,
    first clamps its inputs: a page of zero or less becomes 1, a page size
    of zero or less becomes 10, a page size above 100 becomes 100.  It
    then asks for [limit = pageSize] records after skipping
    [skip = (page - 1) * pageSize] (the product taken in 64 bits, which is
    the exact product whenever that fits), in descending order of start
    time, and returns them with the number of all matching records.  An
    empty job name matches the logs of every job. *)
Theorem ListLogs_clamps (jobName : string) (page pageSize : Z) (db : mongodb.Store) :
  mongodb.faults db = [] →
  let page' := if page <=? 0 then 1 else page in
  let pageSize' :=
    if pageSize <=? 0 then 10 else if pageSize >? 100 then 100 else pageSize in
  let skip := int64 ((page' - 1) * pageSize') in
  let limit := pageSize' in
  let selected :=
    filter (fun l => mongodb.job_filter jobName l = true) (mongodb.collection db) in
  1 <= page' ∧ 1 <= pageSize' <= 100 ∧
  ((page' - 1) * pageSize' < 2 ^ 63 → skip = (page' - 1) * pageSize') ∧
  (0 <= skip →
     logmgr.ListLogs jobName page pageSize db =
       ((take (Z.to_nat limit)
           (drop (Z.to_nat skip) (merge_sort mongodb.by_startTime_desc selected)),
         Z.of_nat (length selected), None), db)) ∧
  (jobName = "" → selected = mongodb.collection db).
Proof.
  intros Hf page' pageSize' skip limit selected.
  assert (Hpage : 1 <= page').
  { subst page'. destruct (Z.leb_spec page 0); lia. }
  assert (Hsize : 1 <= pageSize' <= 100).
  { subst pageSize'. destruct (Z.leb_spec pageSize 0); [lia|].
    rewrite Z.gtb_ltb. destruct (Z.ltb_spec 100 pageSize); lia. }
  assert (Hcode : (let ps := if pageSize <=? 0 then DefaultPageSize else pageSize in
                   if ps >? MaxPageSize then MaxPageSize else ps) = pageSize').
  { subst pageSize'. unfold DefaultPageSize, MaxPageSize. simpl.
    destruct (Z.leb_spec pageSize 0); [reflexivity|]. reflexivity. }
  split; [exact Hpage|]. split; [exact Hsize|]. split; [|split].
  - intros Hfit. subst skip. apply int64_id. unfold is_int64. nia.
  - intros Hskip. unfold logmgr.ListLogs.
    cbv zeta in Hcode. rewrite Hcode.
    change (if page <=? 0 then DefaultPage else page) with page'.
    fold skip.
    rewrite FindJobLogs_no_faults by (try done; lia).
    by rewrite CountJobLogs_no_faults.
  - intros ->. apply filter_all_jobs.
Qed.

Lemma ListLogs_clamps_witness :
  mongodb.faults demo.logdb = [] ∧
  ∃ (logs : list JobLog) (total : Z),
    logmgr.ListLogs "" 0 500 demo.logdb = ((logs, total, None), demo.logdb) ∧
    total = 3.
Proof.
  split; [reflexivity|].
  destruct (ListLogs_clamps "" 0 500 demo.logdb eq_refl) as (_ & _ & _ & Hlist & _).
  eexists _, _. split; [apply Hlist; by vm_compute|reflexivity].
Defined.

(** In UTC the day [days] days back is [days * 86400] seconds back. *)
Lemma Unix_AddDate_days_utc (now : Time) (days : Z) :
  Unix (@AddDate_days demo.utc now (- days)) = Unix now - days * 86400.
Proof.
  unfold Unix. simpl.
  replace (now + - days * 86400 * 1000000000)
    with (now + (- days * 86400) * 1000000000) by lia.
  rewrite Z.div_add by lia. lia.
Qed.






(** ** The job cache of the worker *)

Lemma substring_all (s : string) : String.substring 0 (String.length s) s = s.
Proof. induction s as [|ch s IH]; simpl; [done|by rewrite IH]. Qed.

Lemma extractJobName_key (name : string) :
  name ≠ "" → worker_jobmgr.extractJobName (JobSaveDir +:+ name) = name.
Proof.
  intros Hne. destruct name as [|ch name]; [done|].
  unfold worker_jobmgr.extractJobName. simpl.
  by rewrite substring_all.
Qed.

(** C8: [handleWatchEvent] on a watch delta, the name being the part of
    the key after [/cron/jobs/].  A Put whose value decodes stores the job
    in the cache under its name and yields [{Save, job}]; a Put whose
    value does not decode yields no event and leaves the cache as it was;
    a Delete for a name present in the cache removes the entry and yields
    [{Delete, job}] with the job that was cached; a Delete for a name
    absent from the cache yields no event and leaves the cache as it
    was. *)
Theorem handleWatchEvent_cases `{Json} (event : worker_jobmgr.Event)
    (jm : worker_jobmgr.JobManager) :
  let name := worker_jobmgr.extractJobName (worker_jobmgr.KvKey event) in
  (∀ n : string, n ≠ "" → worker_jobmgr.extractJobName (JobSaveDir +:+ n) = n) ∧
  (∀ job : Job,
     worker_jobmgr.Type_ event = worker_jobmgr.EventTypePut →
     Unmarshal (worker_jobmgr.KvValue event) = Some job →
     worker_jobmgr.handleWatchEvent event jm =
       (Some (mkJobEvent JobEventSave job),
        worker_jobmgr.mkJobManager
          (<[Name job := job]> (worker_jobmgr.jobsCache jm))
          (worker_jobmgr.eventChan jm))) ∧
  (worker_jobmgr.Type_ event = worker_jobmgr.EventTypePut →
   Unmarshal (worker_jobmgr.KvValue event) = None →
   worker_jobmgr.handleWatchEvent event jm = (None, jm)) ∧
  (∀ job : Job,
     worker_jobmgr.Type_ event = worker_jobmgr.EventTypeDelete →
     worker_jobmgr.jobsCache jm !! name = Some job →
     worker_jobmgr.handleWatchEvent event jm =
       (Some (mkJobEvent JobEventDelete job),
        worker_jobmgr.mkJobManager
          (delete name (worker_jobmgr.jobsCache jm))
          (worker_jobmgr.eventChan jm))) ∧
  (worker_jobmgr.Type_ event = worker_jobmgr.EventTypeDelete →
   worker_jobmgr.jobsCache jm !! name = None →
   worker_jobmgr.handleWatchEvent event jm = (None, jm)).
Proof.
  intros name. unfold worker_jobmgr.handleWatchEvent. fold name.
  split; [exact extractJobName_key|].
  repeat split.
  - by intros job -> ->.
  - by intros -> ->.
  - by intros job -> ->.
  - by intros -> ->.
Qed.

(** ** The executor *)

(** A sender parked on the full channel gets its result in at the next
    receive. *)
Lemma recv_admits_parked (r p : JobExecuteResult) (rest ps : list JobExecuteResult) :
  executor.recv (executor.mkExecutor (r :: rest) (p :: ps)) =
    Some (r, executor.mkExecutor (rest ++ [p]) ps).
Proof. reflexivity. Qed.

(** C4: the goroutine of [ExecuteJob] sends one result whatever became of
    the child: the result goes to the end of the result channel when
    there is room, and otherwise stays with the sender, which waits for
    room (it is not dropped).  When the run failed and the cancellation
    scope reports that the deadline of the job's timeout passed, the
    result has [timedOut = true], exit code -1 and the error text
    ["job execution timed out"].  Otherwise, when the child exited with a
    nonzero status the result carries that exit code, and for any other
    failure the exit code is -1; in both cases the error text is that of
    the underlying error.  A run without error has exit code 0. *)
Theorem ExecuteJob_always_emits (info : JobExecuteInfo) (startTime endTime : Time)
    (output : string) (o : executor.Outcome) (e : executor.Executor) :
  let r := executor.buildResult info startTime endTime output o in
  let e' := executor.ExecuteJob info startTime endTime output o e in
  ((length (executor.jobResults e) < executor.jobResultsCap)%nat →
     executor.jobResults e' = executor.jobResults e ++ [r] ∧
     executor.parked e' = executor.parked e) ∧
  ((executor.jobResultsCap ≤ length (executor.jobResults e))%nat →
     executor.jobResults e' = executor.jobResults e ∧
     executor.parked e' = executor.parked e ++ [r]) ∧
  ResJobName r = Name (InfoJob info) ∧
  (∀ err : executor.RunError,
     o = executor.Failed err (Some executor.DeadlineExceeded) →
     ResIsTimeout r = true ∧ ResExitCode r = -1 ∧
     ResError r = "job execution timed out") ∧
  (∀ (code : Z) (text : string) (ctxErr : option executor.CtxErr),
     o = executor.Failed (executor.ExitError code text) ctxErr →
     ctxErr ≠ Some executor.DeadlineExceeded →
     ResIsTimeout r = false ∧ ResExitCode r = code ∧ ResError r = text) ∧
  (∀ (text : string) (ctxErr : option executor.CtxErr),
     o = executor.Failed (executor.OtherError text) ctxErr →
     ctxErr ≠ Some executor.DeadlineExceeded →
     ResIsTimeout r = false ∧ ResExitCode r = -1 ∧ ResError r = text) ∧
  (o = executor.Exited0 →
     ResIsTimeout r = false ∧ ResExitCode r = 0 ∧ ResError r = "").
Proof.
  intros r e'. subst r e'. unfold executor.ExecuteJob, executor.send.
  split; [|split].
  - intros Hroom.
    destruct (Nat.ltb_spec (length (executor.jobResults e)) executor.jobResultsCap);
      [done|lia].
  - intros Hfull.
    destruct (Nat.ltb_spec (length (executor.jobResults e)) executor.jobResultsCap);
      [lia|done].
  - split; [by destruct o as [|[] [[]|]]|].
    split; [by intros err ->|].
    split; [intros code text [[]|] -> Hne; done|].
    split; [intros text [[]|] -> Hne; done|].
    by intros ->.
Qed.

(** ** The scheduler *)

Section scheduling.
Context `{Cronexpr}.

(** C2, where the code departs from the claim: on a Save event for an
    enabled job whose cron expression does not parse, [handleJobEvent]
    logs the error and returns.  The scheduler is left as it was, so a
    plan already in the table for that job name is not removed: the job
    goes on firing with its old command and expression, whereas the
    branch for a disabled job, a few lines above, deletes the plan. *)
Theorem handleJobEvent_unparseable_keeps_table (now : Time) (event : JobEvent)
    (s : scheduler.Scheduler) :
  EventType event = JobEventSave →
  Disabled (EventJob event) = false →
  Parse (CronExpr (EventJob event)) = None →
  scheduler.handleJobEvent now event s = s ∧
  scheduler.jobPlans (scheduler.handleJobEvent now event s)
    !! Name (EventJob event) = scheduler.jobPlans s !! Name (EventJob event).
Proof.
  intros Hsave Hen Hparse.
  assert (Hsame : scheduler.handleJobEvent now event s = s).
  { unfold scheduler.handleJobEvent. by rewrite Hsave, Hen, Hparse. }
  by rewrite Hsame.
Qed.

(** What each of the two receivers does with a result. *)
Lemma onResult_scheduleLoop (result : JobExecuteResult) (w : worker.workerContext) :
  let w' := worker.onResult worker.scheduleLoop result w in
  scheduler.jobExecuting (worker.scheduler_ w') !! ResJobName result = None ∧
  worker.logSink w' = worker.logSink w.
Proof. simpl. split; [apply lookup_delete_eq|done]. Qed.

Lemma onResult_handleExecuteResults (result : JobExecuteResult)
    (w : worker.workerContext) :
  let w' := worker.onResult worker.handleExecuteResults result w in
  worker.scheduler_ w' = worker.scheduler_ w ∧
  (scheduler.jobExecuting (worker.scheduler_ w) !! ResJobName result = None →
   worker.logSink w' = worker.logSink w).
Proof.
  simpl. unfold worker.handleExecuteResult, scheduler.GetExecutingJobs.
  destruct (scheduler.jobExecuting (worker.scheduler_ w) !! ResJobName result);
    by split.
Qed.

(** C1 (what the code does instead): whichever goroutine receives a
    result, afterwards either the job is still in the in-flight table or
    the log sink is exactly as it was, so no result is both taken out of
    the table and logged.  The loop of the scheduler removes the entry
    and logs nothing; [handleExecuteResults] may log but leaves the entry
    in place. *)
Theorem onResult_removes_or_logs_never_both (who : worker.receiver)
    (result : JobExecuteResult) (w : worker.workerContext) :
  let w' := worker.onResult who result w in
  is_Some (scheduler.jobExecuting (worker.scheduler_ w') !! ResJobName result) ∨
  worker.logSink w' = worker.logSink w.
Proof.
  intros w'. subst w'. destruct who.
  - right. apply onResult_scheduleLoop.
  - destruct (onResult_handleExecuteResults result w) as [Hsched Hsink].
    cbv zeta in Hsched, Hsink. rewrite Hsched.
    destruct (scheduler.jobExecuting (worker.scheduler_ w) !! ResJobName result)
      as [info|] eqn:Hin; [left; eauto|right; by apply Hsink].
Qed.

End scheduling.

Lemma handleJobEvent_unparseable_keeps_table_witness :
  EventType demo.bad_cron_event = JobEventSave ∧
  Disabled (EventJob demo.bad_cron_event) = false ∧
  @Parse demo.cronexpr (CronExpr (EventJob demo.bad_cron_event)) = None ∧
  @scheduler.handleJobEvent demo.cronexpr 7000000000 demo.bad_cron_event demo.sched1
    = demo.sched1.
Proof.
  repeat (split; [reflexivity|]).
  apply (@handleJobEvent_unparseable_keeps_table demo.cronexpr 7000000000
           demo.bad_cron_event demo.sched1 eq_refl eq_refl eq_refl).
Defined.

(** C2 at a concrete state: the plan that was in the table for the job
    is still there after the Save event whose expression does not parse. *)
Lemma handleJobEvent_bad_cron_plan_not_removed :
  @Parse demo.cronexpr (CronExpr (EventJob demo.bad_cron_event)) = None ∧
  scheduler.jobPlans demo.sched1 !! "backup" = Some demo.plan1 ∧
  scheduler.jobPlans
    (@scheduler.handleJobEvent demo.cronexpr 7000000000 demo.bad_cron_event demo.sched1)
    !! "backup" = Some demo.plan1.
Proof. split; [reflexivity|]. split; reflexivity. Qed.

(** C1 at a concrete state: the job is in flight and the log channel is
    empty.  Received by the loop of the scheduler, the result leaves the
    log channel empty; received by [handleExecuteResults], it leaves the
    job in the in-flight table. *)
Lemma onResult_failing_input :
  logsink.logChan
    (worker.logSink
       (@worker.onResult demo.cronexpr worker.scheduleLoop demo.result1 demo.worker1))
    = [] ∧
  scheduler.jobExecuting
    (worker.scheduler_
       (@worker.onResult demo.cronexpr worker.handleExecuteResults demo.result1
          demo.worker1))
    !! "backup" = Some demo.info1.
Proof. split; reflexivity. Qed.

(** ** The model on concrete inputs *)

Example extractJobName_backup :
  worker_jobmgr.extractJobName "/cron/jobs/backup" = "backup".
Proof. reflexivity. Qed.

Example extractJobName_short_key :
  worker_jobmgr.extractJobName "/cron/jobs/" = "".
Proof. reflexivity. Qed.

(** A child killed at the deadline of the job's timeout. *)
Example buildResult_killed_at_deadline :
  executor.buildResult demo.info1 1 2 ""
    (executor.Failed (executor.ExitError (-1) "signal: killed")
       (Some executor.DeadlineExceeded))
  = mkJobExecuteResult "backup" "" "job execution timed out" 1 2 (-1) true.
Proof. reflexivity. Qed.

(** A shell that exits with status 3. *)
Example buildResult_exit_status :
  executor.buildResult demo.info1 1 2 "out"
    (executor.Failed (executor.ExitError 3 "exit status 3") None)
  = mkJobExecuteResult "backup" "out" "exit status 3" 1 2 3 false.
Proof. reflexivity. Qed.

(** Page 0 of size 500 over three logs: the newest first, all three. *)
Example ListLogs_all_jobs :
  logmgr.ListLogs "" 0 500 demo.logdb =
    (([demo.log_timed_out; demo.log_failed; demo.log_ok], 3, None), demo.logdb).
Proof. vm_compute. reflexivity. Qed.

(** One third as a double: [0x3FD5555555555555]. *)
Example float64_div_third :
  logmgr.float64_div (logmgr.float64 1) (logmgr.float64 3) =
    S754_finite false 6004799503160661 (-54).
Proof. vm_compute. reflexivity. Qed.

(** Two runs of [backup], of three seconds and of one second. *)
Example GetLogStatistics_backup :
  @logmgr.GetLogStatistics demo.utc 1000000000000 "backup" 0 demo.logdb =
    (inr (logmgr.mkStatistics 2 1 1 0 (logmgr.float64 2) 7), demo.logdb).
Proof. vm_compute. reflexivity. Qed.

(** The second contender for a lock finds the key and is turned away. *)
Example TryAcquireLock_contended :
  ∃ (c1 c2 : etcd.Store),
    etcd.TryAcquireLock "/cron/lock/backup" 5 demo.store0 = (inr 1, c1) ∧
    etcd.TryAcquireLock "/cron/lock/backup" 5 c1 = (inl ErrLockAlreadyAcquired, c2) ∧
    etcd.kvs c2 = etcd.kvs c1.
Proof. eexists _, _. repeat split; vm_compute; reflexivity. Qed.

(** With the channel of the sink at capacity the log is discarded. *)
Example Append_full_channel :
  logsink.logChan
    (logsink.Append demo.log_ok
       (logsink.mkLogSink (replicate 1000 demo.log_failed) [] 100 []))
  = replicate 1000 demo.log_failed.
Proof. vm_compute. reflexivity. Qed.

(** * Further properties of the code *)

(** ** Locks in etcd *)

Lemma TryAcquireLock_free (lockKey : string) (ttl : Z) (c : etcd.Store) :
  etcd.faults c = [] →
  etcd.kvs c !! lockKey = None →
  etcd.TryAcquireLock lockKey ttl c =
    (inr (Z.pos (etcd.lease_grant ttl c).1),
     etcd.kv_put lockKey "" (Z.pos (etcd.lease_grant ttl c).1)
       (etcd.lease_grant ttl c).2).
Proof.
  intros Hf Hnone. destruct c as [kvs leases rev faults]; simpl in *; subst faults.
  unfold etcd.TryAcquireLock, etcd.rpc, etcd.createRevision; simpl.
  by rewrite Hnone.
Qed.

Lemma TryAcquireLock_held (lockKey : string) (ttl : Z) (c : etcd.Store) :
  etcd.faults c = [] →
  is_Some (etcd.kvs c !! lockKey) →
  etcd.TryAcquireLock lockKey ttl c =
    (inl ErrLockAlreadyAcquired, (etcd.lease_grant ttl c).2).
Proof.
  intros Hf [kv Hkv]. destruct c as [kvs leases rev faults]; simpl in *; subst faults.
  unfold etcd.TryAcquireLock, etcd.rpc, etcd.createRevision; simpl.
  by rewrite Hkv.
Qed.

Lemma ReleaseLock_no_faults (lockKey : string) (leaseID : Z) (c : etcd.Store) :
  etcd.faults c = [] →
  etcd.ReleaseLock lockKey leaseID c = (inr tt, etcd.lease_revoke leaseID c).
Proof. intros Hf. unfold etcd.ReleaseLock. by rewrite rpc_no_faults. Qed.

Lemma lease_revoke_faults (id : Z) (c : etcd.Store) :
  etcd.faults (etcd.lease_revoke id c) = etcd.faults c.
Proof.
  unfold etcd.lease_revoke. destruct id as [|p|p]; try done.
  by destruct (etcd.leases c !! p).
Qed.

(** Revoking a live lease: which keys go and which stay. *)
Lemma lease_revoke_lookup (p : positive) (c : etcd.Store) (key : string) :
  is_Some (etcd.leases c !! p) →
  etcd.kvs (etcd.lease_revoke (Z.pos p) c) !! key =
    match etcd.kvs c !! key with
    | Some kv => if decide (etcd.Lease kv = Z.pos p) then None else Some kv
    | None => None
    end.
Proof.
  intros [ttl Hlive]. unfold etcd.lease_revoke. rewrite Hlive. simpl.
  rewrite map_lookup_filter.
  destruct (etcd.kvs c !! key) as [kv|]; simpl; [|done].
  case_decide; by rewrite ?option_guard_True, ?option_guard_False by naive_solver.
Qed.

(** X1: with etcd reachable and the key free, [TryAcquireLock] takes the
    lock; while it is held a second [TryAcquireLock] on the same key is
    turned away with [ErrLockAlreadyAcquired]; [ReleaseLock] with the
    lease of the holder removes the key; and the lock can then be taken
    again. *)
Theorem lock_release_cycle (lockKey : string) (ttl : Z) (c : etcd.Store) :
  etcd.faults c = [] →
  etcd.kvs c !! lockKey = None →
  ∃ (id id' : positive) (c1 c2 c3 c4 : etcd.Store),
    etcd.TryAcquireLock lockKey ttl c = (inr (Z.pos id), c1) ∧
    etcd.TryAcquireLock lockKey ttl c1 = (inl ErrLockAlreadyAcquired, c2) ∧
    etcd.ReleaseLock lockKey (Z.pos id) c2 = (inr tt, c3) ∧
    etcd.kvs c3 !! lockKey = None ∧
    etcd.TryAcquireLock lockKey ttl c3 = (inr (Z.pos id'), c4).
Proof.
  intros Hf Hfree.
  set (id := (etcd.lease_grant ttl c).1).
  set (c1 := etcd.kv_put lockKey "" (Z.pos id) (etcd.lease_grant ttl c).2).
  set (c2 := (etcd.lease_grant ttl c1).2).
  set (c3 := etcd.lease_revoke (Z.pos id) c2).
  assert (Hkey1 : etcd.kvs c1 !! lockKey =
            Some (etcd.mkKeyValue lockKey "" (Z.pos id)
                    (etcd.revision c + 1) (etcd.revision c + 1))).
  { subst c1. unfold etcd.kv_put; simpl. rewrite Hfree. apply lookup_insert_eq. }
  assert (Hlive : is_Some (etcd.leases c2 !! id)).
  { subst c2 c1. simpl.
    apply lookup_insert_is_Some'. right.
    apply lookup_insert_is_Some'. by left. }
  assert (Hgone : etcd.kvs c3 !! lockKey = None).
  { subst c3. rewrite lease_revoke_lookup by done.
    change (etcd.kvs c2) with (etcd.kvs c1). rewrite Hkey1. simpl.
    by rewrite decide_True. }
  exists id, (etcd.lease_grant ttl c3).1, c1, c2, c3. eexists.
  split; [by apply TryAcquireLock_free|].
  split; [apply TryAcquireLock_held; [done|by rewrite Hkey1]|].
  split; [by apply ReleaseLock_no_faults|].
  split; [exact Hgone|].
  apply TryAcquireLock_free; [|exact Hgone].
  subst c3. by rewrite lease_revoke_faults.
Qed.

Lemma lock_release_cycle_witness :
  etcd.faults demo.store0 = [] ∧
  etcd.kvs demo.store0 !! "/cron/lock/backup" = None ∧
  ∃ (id : positive) (c1 c2 : etcd.Store),
    etcd.TryAcquireLock "/cron/lock/backup" 5 demo.store0 = (inr (Z.pos id), c1) ∧
    etcd.TryAcquireLock "/cron/lock/backup" 5 c1 = (inl ErrLockAlreadyAcquired, c2).
Proof.
  split; [reflexivity|]. split; [reflexivity|].
  destruct (lock_release_cycle "/cron/lock/backup" 5 demo.store0 eq_refl eq_refl)
    as (id & _ & c1 & c2 & _ & _ & H1 & H2 & _).
  exists id, c1, c2. split; assumption.
Defined.

(** X2: with etcd reachable, [ReleaseLock] with a live lease removes
    exactly the keys bound to that lease: a key bound to it is gone
    afterwards, every other key keeps its value, and the lease itself is
    no longer live. *)
Theorem ReleaseLock_removes_bound_keys (lockKey : string) (p : positive)
    (c : etcd.Store) :
  etcd.faults c = [] →
  is_Some (etcd.leases c !! p) →
  ∃ c' : etcd.Store,
    etcd.ReleaseLock lockKey (Z.pos p) c = (inr tt, c') ∧
    etcd.leases c' !! p = None ∧
    (∀ (key : string) (kv : etcd.KeyValue),
       etcd.kvs c !! key = Some kv → etcd.Lease kv = Z.pos p →
       etcd.kvs c' !! key = None) ∧
    (∀ (key : string) (kv : etcd.KeyValue),
       etcd.kvs c !! key = Some kv → etcd.Lease kv ≠ Z.pos p →
       etcd.kvs c' !! key = Some kv) ∧
    (∀ key : string, etcd.kvs c !! key = None → etcd.kvs c' !! key = None).
Proof.
  intros Hf Hlive. eexists. split; [by apply ReleaseLock_no_faults|].
  split.
  - unfold etcd.lease_revoke. destruct Hlive as [ttl ->]. simpl.
    apply lookup_delete_eq.
  - repeat split; intros key; [intros kv Hkv Hl|intros kv Hkv Hl|intros Hkv];
      rewrite lease_revoke_lookup, Hkv by done; simpl;
      [by rewrite decide_True|by rewrite decide_False|done].
Qed.

Lemma ReleaseLock_removes_bound_keys_witness :
  ∃ (c c' : etcd.Store),
    etcd.faults c = [] ∧ is_Some (etcd.leases c !! 1%positive) ∧
    etcd.ReleaseLock "/cron/lock/backup" 1 c = (inr tt, c') ∧
    etcd.leases c' !! 1%positive = None.
Proof.
  set (c := (etcd.TryAcquireLock "/cron/lock/backup" 5 demo.store0).2).
  assert (Hf : etcd.faults c = []) by reflexivity.
  assert (Hlive : is_Some (etcd.leases c !! 1%positive)) by (vm_compute; eauto).
  destruct (ReleaseLock_removes_bound_keys "/cron/lock/backup" 1 c Hf Hlive)
    as (c' & Hrel & Hgone & _).
  exists c, c'. repeat split; assumption.
Defined.

Lemma PutWithLease_no_faults (key value : string) (ttl : Z) (c : etcd.Store) :
  etcd.faults c = [] →
  etcd.PutWithLease key value ttl c =
    (inr tt, etcd.kv_put key value (Z.pos (etcd.lease_grant ttl c).1)
               (etcd.lease_grant ttl c).2).
Proof.
  intros Hf. destruct c as [kvs leases rev faults]; simpl in *; subst faults.
  reflexivity.
Qed.

(** X3: with etcd reachable and the lock key of the job free, [TryLock]
    on a new [JobLock] succeeds, marks it locked and records the lease;
    [Unlock] then removes the key from etcd and puts the [JobLock] back
    in its initial state.  An [Unlock] of a [JobLock] that is not locked,
    such as a second [Unlock], does nothing at all, not even a call to
    etcd: whatever the store and its fault schedule, both come back as
    they were. *)
Theorem JobLock_lock_unlock (ttl : Z) (name : string) (c : etcd.Store) :
  etcd.faults c = [] →
  etcd.kvs c !! (JobLockDir +:+ name) = None →
  ∃ (id : positive) (c1 c2 : etcd.Store),
    joblock.TryLock ttl (joblock.NewJobLock name) c =
      (None, joblock.mkJobLock name (JobLockDir +:+ name) (Z.pos id) true, c1) ∧
    is_Some (etcd.kvs c1 !! (JobLockDir +:+ name)) ∧
    joblock.Unlock
      (joblock.mkJobLock name (JobLockDir +:+ name) (Z.pos id) true) c1 =
      (joblock.NewJobLock name, c2) ∧
    etcd.kvs c2 !! (JobLockDir +:+ name) = None ∧
    joblock.Unlock (joblock.NewJobLock name) c2 = (joblock.NewJobLock name, c2) ∧
    ∀ (jl : joblock.JobLock) (c' : etcd.Store),
      joblock.isLocked jl = false → joblock.Unlock jl c' = (jl, c').
Proof.
  intros Hf Hfree.
  set (key := JobLockDir +:+ name) in *.
  set (id := (etcd.lease_grant ttl c).1).
  set (c1 := etcd.kv_put key "" (Z.pos id) (etcd.lease_grant ttl c).2).
  assert (Hkey1 : etcd.kvs c1 !! key =
            Some (etcd.mkKeyValue key "" (Z.pos id)
                    (etcd.revision c + 1) (etcd.revision c + 1))).
  { subst c1. unfold etcd.kv_put; simpl. rewrite Hfree. apply lookup_insert_eq. }
  assert (Hlive : is_Some (etcd.leases c1 !! id)).
  { subst c1. simpl. apply lookup_insert_is_Some'. by left. }
  exists id, c1, (etcd.lease_revoke (Z.pos id) c1).
  split.
  { unfold joblock.TryLock, joblock.NewJobLock; simpl. fold key.
    by rewrite TryAcquireLock_free. }
  split; [by rewrite Hkey1|].
  split.
  { unfold joblock.Unlock; simpl. fold key.
    by rewrite ReleaseLock_no_faults. }
  split; [|split; [reflexivity|]].
  - rewrite lease_revoke_lookup, Hkey1 by done. simpl. by rewrite decide_True.
  - intros jl c' Hunlocked. unfold joblock.Unlock. by rewrite Hunlocked.
Qed.

Lemma JobLock_lock_unlock_witness :
  etcd.faults demo.store0 = [] ∧
  etcd.kvs demo.store0 !! (JobLockDir +:+ "backup") = None ∧
  ∃ (id : positive) (c1 : etcd.Store),
    joblock.TryLock 5 (joblock.NewJobLock "backup") demo.store0 =
      (None, joblock.mkJobLock "backup" (JobLockDir +:+ "backup") (Z.pos id) true, c1).
Proof.
  split; [reflexivity|]. split; [reflexivity|].
  destruct (JobLock_lock_unlock 5 "backup" demo.store0 eq_refl eq_refl)
    as (id & c1 & _ & Hlock & _).
  exists id, c1. exact Hlock.
Defined.

(** X4: the kill marker of the master sits on the lock key of the job.
    With etcd reachable, once [KillJob(name)] has written it, a worker's
    [tryStartJob] for a plan of that job starts nothing and leaves the
    scheduler as it was: the marker is taken for a lock held elsewhere. *)
Theorem kill_marker_blocks_dispatch `{Cronexpr} (ttl : Z) (realTime : Time)
    (plan : scheduler.JobSchedulePlan) (s : scheduler.Scheduler) (c : etcd.Store) :
  etcd.faults c = [] →
  ∃ c1 c2 : etcd.Store,
    master_jobmgr.KillJob (Name (scheduler.PlanJob plan)) c = (None, c1) ∧
    is_Some (etcd.kvs c1 !! (JobLockDir +:+ Name (scheduler.PlanJob plan))) ∧
    scheduler.tryStartJob ttl realTime plan s c1 = (s, c2, None).
Proof.
  intros Hf.
  set (name := Name (scheduler.PlanJob plan)).
  set (c1 := etcd.kv_put (JobLockDir +:+ name) "" (Z.pos (etcd.lease_grant 5 c).1)
               (etcd.lease_grant 5 c).2).
  assert (Hkey : is_Some (etcd.kvs c1 !! (JobLockDir +:+ name))).
  { subst c1. unfold etcd.kv_put; simpl. rewrite lookup_insert_eq. eauto. }
  exists c1.
  destruct (scheduler.jobExecuting s !! name) as [info|] eqn:Hexec.
  - exists c1. split; [|split; [exact Hkey|]].
    + unfold master_jobmgr.KillJob. fold name. by rewrite PutWithLease_no_faults.
    + unfold scheduler.tryStartJob. fold name. by rewrite Hexec.
  - exists (etcd.lease_grant ttl c1).2. split; [|split; [exact Hkey|]].
    + unfold master_jobmgr.KillJob. fold name. by rewrite PutWithLease_no_faults.
    + unfold scheduler.tryStartJob. fold name. rewrite Hexec.
      unfold joblock.TryLock, joblock.NewJobLock; simpl.
      by rewrite TryAcquireLock_held.
Qed.

Lemma kill_marker_blocks_dispatch_witness :
  etcd.faults demo.store0 = [] ∧
  ∃ c1 c2 : etcd.Store,
    master_jobmgr.KillJob "backup" demo.store0 = (None, c1) ∧
    @scheduler.tryStartJob demo.cronexpr 5 6100000000 demo.plan1
      (@scheduler.NewScheduler demo.cronexpr) c1 =
      (@scheduler.NewScheduler demo.cronexpr, c2, None).
Proof.
  split; [reflexivity|].
  destruct (@kill_marker_blocks_dispatch demo.cronexpr 5 6100000000 demo.plan1
              (@scheduler.NewScheduler demo.cronexpr) demo.store0 eq_refl)
    as (c1 & c2 & Hkill & _ & Hstart).
  exists c1, c2. split; assumption.
Defined.

(** ** The job registry: round trips *)

Section registry_round_trips.
Context `{Json} `{CronValidator}.

Lemma Delete_no_faults (key : string) (c : etcd.Store) :
  etcd.faults c = [] →
  etcd.Delete key c =
    (inr (etcd.kv_delete key c).1, (etcd.kv_delete key c).2).
Proof.
  intros Hf. unfold etcd.Delete. rewrite rpc_no_faults by done.
  by destruct (etcd.kv_delete key c).
Qed.

Lemma GetJob_missing (name : string) (c : etcd.Store) :
  etcd.faults c = [] →
  etcd.kvs c !! (JobSaveDir +:+ name) = None →
  master_jobmgr.GetJob name c = (inl ErrJobNotFound, c).
Proof.
  intros Hf Hnone. unfold master_jobmgr.GetJob, bind.
  rewrite Get_no_faults, Hnone by done. reflexivity.
Qed.

Lemma GetJob_after_put (name data : string) (job : Job) (c : etcd.Store) :
  etcd.faults c = [] →
  Unmarshal data = Some job →
  master_jobmgr.GetJob name (etcd.kv_put (JobSaveDir +:+ name) data 0 c) =
    (inr job, etcd.kv_put (JobSaveDir +:+ name) data 0 c).
Proof.
  intros Hf Hum. eapply GetJob_stored.
  - by rewrite kv_put_faults.
  - unfold etcd.kv_put; simpl. apply lookup_insert_eq.
  - exact Hum.
Qed.

(** X5: with etcd reachable and a job that survives the JSON round trip
    once stamped, [SaveJob] followed by [GetJob] of the job's name gives
    back the saved job with its stamps: [createdAt] set to the time of
    the save if it was zero, [updatedAt] set to the time of the save. *)
Theorem SaveJob_then_GetJob (now : Time) (job : Job) (data : string) (c : etcd.Store) :
  etcd.faults c = [] →
  Marshal (mkJob (Name job) (Command job) (CronExpr job) (Timeout job)
             (Disabled job)
             (if CreatedAt job =? 0 then Unix now else CreatedAt job)
             (Unix now)) = inr data →
  Unmarshal data =
    Some (mkJob (Name job) (Command job) (CronExpr job) (Timeout job)
            (Disabled job)
            (if CreatedAt job =? 0 then Unix now else CreatedAt job)
            (Unix now)) →
  ∃ (job' : Job) (c' : etcd.Store),
    master_jobmgr.SaveJob now job c = (None, job', c') ∧
    master_jobmgr.GetJob (Name job) c' = (inr job', c') ∧
    job' = mkJob (Name job) (Command job) (CronExpr job) (Timeout job)
             (Disabled job)
             (if CreatedAt job =? 0 then Unix now else CreatedAt job)
             (Unix now).
Proof.
  intros Hf Hm Hum. eexists _, _.
  split; [by apply SaveJob_writes|]. split; [|reflexivity].
  by apply GetJob_after_put.
Qed.

(** X6: with etcd reachable, [DeleteJob] of a stored job returns no
    error, after which [GetJob] of that name fails with [ErrJobNotFound]
    while every other key is as before; [DeleteJob] of a name that is not
    stored fails with [ErrJobNotFound] and leaves the store as it was. *)
Theorem DeleteJob_cases (name : string) (c : etcd.Store) :
  etcd.faults c = [] →
  (is_Some (etcd.kvs c !! (JobSaveDir +:+ name)) →
     ∃ c' : etcd.Store,
       master_jobmgr.DeleteJob name c = (None, c') ∧
       master_jobmgr.GetJob name c' = (inl ErrJobNotFound, c') ∧
       ∀ key : string, key ≠ JobSaveDir +:+ name →
         etcd.kvs c' !! key = etcd.kvs c !! key) ∧
  (etcd.kvs c !! (JobSaveDir +:+ name) = None →
     master_jobmgr.DeleteJob name c = (Some ErrJobNotFound, c)).
Proof.
  intros Hf. split.
  - intros [kv Hkv].
    exists (etcd.mkStore (delete (JobSaveDir +:+ name) (etcd.kvs c)) (etcd.leases c)
              (etcd.revision c + 1) (etcd.faults c)).
    split; [|split].
    + unfold master_jobmgr.DeleteJob. rewrite Delete_no_faults by done.
      unfold etcd.kv_delete. by rewrite Hkv.
    + apply GetJob_missing; [done|]. simpl. apply lookup_delete_eq.
    + intros key Hne. simpl. by apply lookup_delete_ne.
  - intros Hnone. unfold master_jobmgr.DeleteJob.
    rewrite Delete_no_faults by done.
    unfold etcd.kv_delete. by rewrite Hnone.
Qed.

(** X11: with etcd reachable, the handlers [getJob], [deleteJob],
    [disableJob] and [enableJob] answer code 1002 (job does not exist)
    for a name that is not stored, and write nothing. *)
Theorem handlers_on_missing_job (t1 t2 : Time) (name : string) (c : etcd.Store) :
  etcd.faults c = [] →
  etcd.kvs c !! (JobSaveDir +:+ name) = None →
  api.getJob name c = (api.failure ApiJobNotExist "job does not exist", c) ∧
  api.deleteJob name c = (api.failure ApiJobNotExist "job does not exist", c) ∧
  api.disableJob t1 t2 name c = (api.failure ApiJobNotExist "job does not exist", c) ∧
  api.enableJob t1 t2 name c = (api.failure ApiJobNotExist "job does not exist", c).
Proof.
  intros Hf Hnone.
  pose proof (GetJob_missing name c Hf Hnone) as Hget.
  repeat split.
  - unfold api.getJob. by rewrite Hget.
  - unfold api.deleteJob, master_jobmgr.DeleteJob.
    rewrite Delete_no_faults by done.
    unfold etcd.kv_delete. by rewrite Hnone.
  - unfold api.disableJob, master_jobmgr.DisableJob. by rewrite Hget.
  - unfold api.enableJob, master_jobmgr.EnableJob. by rewrite Hget.
Qed.

(** X12: with etcd reachable, a request whose job has a name, a command
    and a cron expression accepted by the API parser, and which survives
    the JSON round trip once stamped, is answered by [saveJob] with code
    0 and the stamped job; [getJob] of that name then answers code 0 with
    the same job. *)
Theorem saveJob_then_getJob (now : Time) (body : string) (job : Job)
    (data : string) (c : etcd.Store) :
  etcd.faults c = [] →
  Unmarshal body = Some job →
  Name job ≠ "" → Command job ≠ "" → CronExpr job ≠ "" →
  cron_Parse (CronExpr job) = true →
  Marshal (mkJob (Name job) (Command job) (CronExpr job) (Timeout job)
             (Disabled job)
             (if CreatedAt job =? 0 then Unix now else CreatedAt job)
             (Unix now)) = inr data →
  Unmarshal data =
    Some (mkJob (Name job) (Command job) (CronExpr job) (Timeout job)
            (Disabled job)
            (if CreatedAt job =? 0 then Unix now else CreatedAt job)
            (Unix now)) →
  ∃ (job' : Job) (c' : etcd.Store),
    api.saveJob now body c = (api.success job', c') ∧
    api.getJob (Name job) c' = (api.success job', c') ∧
    CreatedAt job' = (if CreatedAt job =? 0 then Unix now else CreatedAt job) ∧
    UpdatedAt job' = Unix now.
Proof.
  intros Hf Hbody Hn Hc He Hcron Hm Hum.
  pose proof (SaveJob_writes now job data c Hf Hm) as Hsave.
  exists (mkJob (Name job) (Command job) (CronExpr job) (Timeout job)
            (Disabled job)
            (if CreatedAt job =? 0 then Unix now else CreatedAt job) (Unix now)),
    (etcd.kv_put (JobSaveDir +:+ Name job) data 0 c).
  split; [|split; [|split; reflexivity]].
  - unfold api.saveJob. rewrite Hbody.
    destruct (String.eqb_spec (Name job) ""); [done|].
    destruct (String.eqb_spec (Command job) ""); [done|].
    destruct (String.eqb_spec (CronExpr job) ""); [done|].
    rewrite Hcron. simpl. rewrite Hsave. reflexivity.
  - unfold api.getJob. by rewrite (GetJob_after_put _ _ _ _ Hf Hum).
Qed.

End registry_round_trips.

Lemma SaveJob_then_GetJob_witness :
  etcd.faults demo.store0 = [] ∧
  @Marshal demo.json demo.stored_job1 = inr demo.data1 ∧
  @Unmarshal demo.json demo.data1 = Some demo.stored_job1 ∧
  ∃ c' : etcd.Store,
    @master_jobmgr.SaveJob demo.json 5000000000 demo.job1 demo.store0 =
      (None, demo.stored_job1, c') ∧
    @master_jobmgr.GetJob demo.json "backup" c' = (inr demo.stored_job1, c').
Proof.
  split; [reflexivity|]. split; [reflexivity|]. split; [reflexivity|].
  destruct (@SaveJob_then_GetJob demo.json 5000000000 demo.job1 demo.data1
              demo.store0 eq_refl eq_refl eq_refl)
    as (job' & c' & Hsave & Hget & ->).
  exists c'. split; [exact Hsave|exact Hget].
Defined.

Lemma DeleteJob_cases_witness :
  etcd.faults demo.store1 = [] ∧
  is_Some (etcd.kvs demo.store1 !! (JobSaveDir +:+ "backup")) ∧
  ∃ c' : etcd.Store,
    master_jobmgr.DeleteJob "backup" demo.store1 = (None, c') ∧
    @master_jobmgr.GetJob demo.json "backup" c' = (inl ErrJobNotFound, c').
Proof.
  assert (Hkv : is_Some (etcd.kvs demo.store1 !! (JobSaveDir +:+ "backup")))
    by (exists demo.kv1; reflexivity).
  split; [reflexivity|]. split; [exact Hkv|].
  destruct (@DeleteJob_cases demo.json "backup" demo.store1 eq_refl) as [Hdel _].
  destruct (Hdel Hkv) as (c' & H1 & H2 & _).
  exists c'. split; assumption.
Defined.

Lemma handlers_on_missing_job_witness :
  etcd.faults demo.store0 = [] ∧
  etcd.kvs demo.store0 !! (JobSaveDir +:+ "backup") = None ∧
  @api.getJob demo.json "backup" demo.store0 =
    (api.failure 1002 "job does not exist", demo.store0).
Proof.
  split; [reflexivity|]. split; [reflexivity|].
  apply (@handlers_on_missing_job demo.json 1 2 "backup" demo.store0 eq_refl eq_refl).
Defined.

Lemma saveJob_then_getJob_witness :
  etcd.faults demo.store0 = [] ∧
  @Unmarshal demo.json demo.body1 = Some demo.job1 ∧
  @cron_Parse demo.cron_validator (CronExpr demo.job1) = true ∧
  ∃ (job' : Job) (c' : etcd.Store),
    @api.saveJob demo.json demo.cron_validator 5000000000 demo.body1 demo.store0 =
      (api.success job', c') ∧
    @api.getJob demo.json "backup" c' = (api.success job', c').
Proof.
  split; [reflexivity|]. split; [reflexivity|]. split; [reflexivity|].
  destruct (@saveJob_then_getJob demo.json demo.cron_validator 5000000000
              demo.body1 demo.job1 demo.data1 demo.store0
              eq_refl eq_refl ltac:(done) ltac:(done) ltac:(done) eq_refl eq_refl eq_refl)
    as (job' & c' & Hsave & Hget & _).
  exists job', c'. split; assumption.
Defined.

(** ** Searching jobs *)

Lemma matchFrom_spec (source substr : string) (i j n : nat) :
  master_jobmgr.matchFrom source substr i j n = true ↔
  ∀ k : nat, (k < n)%nat →
    master_jobmgr.toLower (master_jobmgr.byteAt source (i + (j + k))) =
    master_jobmgr.toLower (master_jobmgr.byteAt substr (j + k)).
Proof.
  revert j. induction n as [|n IH]; intros j; simpl.
  - split; [intros _ k Hk; lia|done].
  - destruct (Ascii.eqb_spec
                (master_jobmgr.toLower (master_jobmgr.byteAt source (i + j)))
                (master_jobmgr.toLower (master_jobmgr.byteAt substr j))) as [Heq|Hne].
    + rewrite IH. split.
      * intros Hrest [|k] Hk.
        -- by rewrite !Nat.add_0_r.
        -- replace (j + S k)%nat with (S j + k)%nat by lia. apply Hrest. lia.
      * intros Hall k Hk.
        replace (S j + k)%nat with (j + S k)%nat by lia. apply Hall. lia.
    + split; [done|]. intros Hall. exfalso. apply Hne.
      specialize (Hall 0%nat). rewrite !Nat.add_0_r in Hall. apply Hall. lia.
Qed.

Lemma searchFrom_spec (source substr : string) (i n : nat) :
  master_jobmgr.searchFrom source substr i n = true ↔
  ∃ d : nat, (d < n)%nat ∧
    master_jobmgr.matchFrom source substr (i + d) 0 (String.length substr) = true.
Proof.
  revert i. induction n as [|n IH]; intros i; simpl.
  - split; [done|]. intros (d & Hd & _). lia.
  - destruct (master_jobmgr.matchFrom source substr i 0 (String.length substr))
      eqn:Hhere.
    + split; [|done]. intros _. exists 0%nat. rewrite Nat.add_0_r. split; [lia|done].
    + rewrite IH. split.
      * intros (d & Hd & Hm). exists (S d). split; [lia|].
        by replace (i + S d)%nat with (S i + d)%nat by lia.
      * intros ([|d] & Hd & Hm).
        -- rewrite Nat.add_0_r in Hm. congruence.
        -- exists d. split; [lia|].
           by replace (S i + d)%nat with (i + S d)%nat by lia.
Qed.

Lemma containsSubstring_iff (source substr : string) :
  master_jobmgr.containsSubstring source substr = true ↔
  ∃ i : nat,
    (i + String.length substr ≤ String.length source)%nat ∧
    ∀ k : nat, (k < String.length substr)%nat →
      master_jobmgr.toLower (master_jobmgr.byteAt source (i + k)) =
      master_jobmgr.toLower (master_jobmgr.byteAt substr k).
Proof.
  unfold master_jobmgr.containsSubstring.
  destruct (Nat.ltb_spec (String.length source) (String.length substr)) as [Hlt|Hge].
  - split; [done|]. intros (i & Hi & _). lia.
  - rewrite searchFrom_spec. split.
    + intros (d & Hd & Hm). exists d. split; [lia|].
      pose proof (proj1 (matchFrom_spec _ _ _ _ _) Hm) as Hall.
      intros k Hk. exact (Hall k Hk).
    + intros (i & Hi & Hall). exists i. split; [lia|].
      apply (proj2 (matchFrom_spec _ _ _ _ _)). intros k Hk. exact (Hall k Hk).
Qed.

(** X7: [containsSubstring(source, substr)] is true exactly when there is
    an offset [i] with [i + len(substr) <= len(source)] at which every
    byte of [substr] equals the byte of [source] facing it once both are
    passed through [toLower]. *)
Theorem containsSubstring_offsets (source substr : string) :
  master_jobmgr.containsSubstring source substr = true ↔
  ∃ i : nat,
    (i + String.length substr ≤ String.length source)%nat ∧
    ∀ k : nat, (k < String.length substr)%nat →
      master_jobmgr.toLower (master_jobmgr.byteAt source (i + k)) =
      master_jobmgr.toLower (master_jobmgr.byteAt substr k).
Proof. apply containsSubstring_iff. Qed.

Lemma string_length_append (s1 s2 : string) :
  String.length (s1 +:+ s2) = (String.length s1 + String.length s2)%nat.
Proof. induction s1 as [|ch s1 IH]; simpl; [done|by rewrite IH]. Qed.

Lemma byteAt_inside (pre s post : string) (k : nat) :
  (k < String.length s)%nat →
  master_jobmgr.byteAt (pre +:+ s +:+ post) (String.length pre + k) =
  master_jobmgr.byteAt s k.
Proof.
  intros Hk. unfold master_jobmgr.byteAt.
  rewrite (Nat.add_comm (String.length pre) k).
  rewrite <- (String.append_correct2 pre (s +:+ post) k).
  by rewrite <- (String.append_correct1 s post k Hk).
Qed.

(** X8: a string is always found in any string that contains it:
    [containsSubstring(pre + s + post, s)] is true for all [pre], [s] and
    [post]; in particular the empty string is found in every string and
    every string in itself. *)
Theorem containsSubstring_occurrence (pre s post : string) :
  master_jobmgr.containsSubstring (pre +:+ s +:+ post) s = true ∧
  master_jobmgr.containsSubstring s "" = true ∧
  master_jobmgr.containsSubstring s s = true.
Proof.
  assert (Hocc : ∀ pre s post,
            master_jobmgr.containsSubstring (pre +:+ s +:+ post) s = true).
  { clear. intros pre s post. apply containsSubstring_iff.
    exists (String.length pre). split.
    - rewrite !string_length_append. lia.
    - intros k Hk. by rewrite byteAt_inside. }
  split; [apply Hocc|]. split.
  - apply containsSubstring_iff. exists 0%nat. split; [simpl; lia|].
    simpl. intros k Hk. lia.
  - apply containsSubstring_iff. exists 0%nat. split; [lia|done].
Qed.

Lemma GetWithPrefix_no_faults (prefix : string) (c : etcd.Store) :
  etcd.faults c = [] →
  etcd.GetWithPrefix prefix c =
    (inr ((merge_sort etcd.key_le
             (map_to_list
                (filter (fun e : string * etcd.KeyValue =>
                           String.prefix prefix e.1 = true) (etcd.kvs c)))).*2), c).
Proof. intros Hf. unfold etcd.GetWithPrefix. by rewrite rpc_no_faults. Qed.

Lemma elem_of_GetWithPrefix (prefix : string) (c : etcd.Store) (kv : etcd.KeyValue) :
  kv ∈ (merge_sort etcd.key_le
          (map_to_list
             (filter (fun e : string * etcd.KeyValue =>
                        String.prefix prefix e.1 = true) (etcd.kvs c)))).*2 ↔
  ∃ key : string,
    etcd.kvs c !! key = Some kv ∧ String.prefix prefix key = true.
Proof.
  rewrite list_elem_of_fmap. split.
  - intros ([key kv'] & -> & Hin).
    rewrite merge_sort_Permutation in Hin.
    apply elem_of_map_to_list, map_lookup_filter_Some in Hin.
    exists key. exact Hin.
  - intros (key & Hkv & Hpre). exists (key, kv). split; [done|].
    rewrite merge_sort_Permutation.
    apply elem_of_map_to_list, map_lookup_filter_Some. by split.
Qed.

Section listing.
Context `{Json}.

(** X9: with etcd reachable, [ListJobs] returns exactly the jobs that
    decode from the value of some key under [/cron/jobs/]; keys elsewhere
    and values that do not decode contribute nothing. *)
Theorem ListJobs_membership (c : etcd.Store) :
  etcd.faults c = [] →
  ∃ jobs : list Job,
    master_jobmgr.ListJobs c = (inr jobs, c) ∧
    ∀ job : Job,
      job ∈ jobs ↔
      ∃ (key : string) (kv : etcd.KeyValue),
        etcd.kvs c !! key = Some kv ∧
        String.prefix JobSaveDir key = true ∧
        Unmarshal (etcd.Value kv) = Some job.
Proof.
  intros Hf. eexists. split.
  - unfold master_jobmgr.ListJobs, bind.
    rewrite GetWithPrefix_no_faults by done. reflexivity.
  - intros job. rewrite list_elem_of_omap. split.
    + intros (kv & Hin & Hdec). apply elem_of_GetWithPrefix in Hin.
      destruct Hin as (key & Hkv & Hpre). by exists key, kv.
    + intros (key & kv & Hkv & Hpre & Hdec). exists kv. split; [|done].
      apply elem_of_GetWithPrefix. by exists key.
Qed.

(** X10: with etcd reachable, [SearchJobs(keyword)] returns the jobs of
    [ListJobs], in the same order, whose name or command contains the
    keyword in the sense of [containsSubstring]; for the empty keyword
    this is all of them. *)
Theorem SearchJobs_filters (keyword : string) (c : etcd.Store) :
  etcd.faults c = [] →
  ∃ allJobs : list Job,
    master_jobmgr.ListJobs c = (inr allJobs, c) ∧
    master_jobmgr.SearchJobs keyword c =
      (inr (filter (fun job =>
                      master_jobmgr.containsSubstring (Name job) keyword = true ∨
                      master_jobmgr.containsSubstring (Command job) keyword = true)
              allJobs), c) ∧
    (keyword = "" → master_jobmgr.SearchJobs keyword c = (inr allJobs, c)).
Proof.
  intros Hf.
  assert (Hlist : ∃ allJobs, master_jobmgr.ListJobs c = (inr allJobs, c)).
  { eexists. unfold master_jobmgr.ListJobs, bind.
    rewrite GetWithPrefix_no_faults by done. reflexivity. }
  destruct Hlist as [allJobs Hlist]. exists allJobs.
  split; [exact Hlist|].
  unfold master_jobmgr.SearchJobs, bind. rewrite Hlist.
  destruct (String.eqb_spec keyword "") as [->|Hne]; unfold ret.
  - split; [|done]. f_equal. f_equal. symmetry. clear.
    induction allJobs as [|job jobs IH]; [done|].
    rewrite filter_cons_True; [by rewrite IH|].
    left. apply containsSubstring_iff. exists 0%nat. split; [simpl; lia|].
    simpl. intros k Hk. lia.
  - split; [|done]. f_equal. f_equal. apply list_filter_iff. intros job.
    unfold master_jobmgr.containsString. rewrite orb_true_iff. done.
Qed.

End listing.

Lemma ListJobs_membership_witness :
  etcd.faults demo.store1 = [] ∧
  ∃ jobs : list Job,
    @master_jobmgr.ListJobs demo.json demo.store1 = (inr jobs, demo.store1) ∧
    demo.stored_job1 ∈ jobs.
Proof.
  split; [reflexivity|].
  destruct (@ListJobs_membership demo.json demo.store1 eq_refl) as (jobs & Hlist & Hin).
  exists jobs. split; [exact Hlist|].
  apply Hin. exists "/cron/jobs/backup", demo.kv1.
  split; [reflexivity|]. split; reflexivity.
Defined.

Lemma SearchJobs_filters_witness :
  etcd.faults demo.store1 = [] ∧
  ∃ allJobs : list Job,
    @master_jobmgr.ListJobs demo.json demo.store1 = (inr allJobs, demo.store1) ∧
    @master_jobmgr.SearchJobs demo.json "BACK" demo.store1 =
      (inr (filter (fun job =>
                      master_jobmgr.containsSubstring (Name job) "BACK" = true ∨
                      master_jobmgr.containsSubstring (Command job) "BACK" = true)
              allJobs), demo.store1).
Proof.
  split; [reflexivity|].
  destruct (@SearchJobs_filters demo.json "BACK" demo.store1 eq_refl)
    as (allJobs & Hlist & Hsearch & _).
  exists allJobs. split; assumption.
Defined.

Example SearchJobs_ignores_case :
  @master_jobmgr.SearchJobs demo.json "BACK" demo.store1 =
    (inr [demo.stored_job1], demo.store1) ∧
  @master_jobmgr.SearchJobs demo.json "restore" demo.store1 =
    (inr [], demo.store1).
Proof. split; vm_compute; reflexivity. Qed.

(** ** The log store and the log manager *)

Lemma by_startTime_desc_transitive : Transitive mongodb.by_startTime_desc.
Proof. intros x y z. unfold mongodb.by_startTime_desc. lia. Qed.

Lemma by_startTime_desc_total : Total mongodb.by_startTime_desc.
Proof. intros x y. unfold mongodb.by_startTime_desc. lia. Qed.

Lemma sorted_newest_first (logs : list JobLog) :
  StronglySorted mongodb.by_startTime_desc
    (merge_sort mongodb.by_startTime_desc logs).
Proof.
  pose proof by_startTime_desc_transitive.
  pose proof by_startTime_desc_total.
  apply StronglySorted_merge_sort; apply _.
Qed.

Lemma StronglySorted_drop {A} (R : relation A) (n : nat) (l : list A) :
  StronglySorted R l → StronglySorted R (drop n l).
Proof.
  revert n. induction l as [|x l IH]; intros [|n] Hs; simpl; try done.
  apply IH. by inversion Hs.
Qed.

Lemma StronglySorted_take {A} (R : relation A) (n : nat) (l : list A) :
  StronglySorted R l → StronglySorted R (take n l).
Proof.
  revert n. induction l as [|x l IH]; intros [|n] Hs; simpl; try constructor.
  - apply IH. by inversion Hs.
  - inversion Hs as [|? ? _ Hall]; subst.
    rewrite Forall_forall in Hall. apply Forall_forall. intros y Hy.
    apply Hall. apply elem_of_take in Hy as (i & Hi & _).
    apply list_elem_of_lookup. by exists i.
Qed.

Lemma DeleteOldLogs_no_faults (before : Time) (db : mongodb.Store) :
  mongodb.faults db = [] →
  (mongodb.DeleteOldLogs before db).2 =
    mongodb.mkStore
      (filter (fun l => Unix before <= EndTime l) (mongodb.collection db)) [].
Proof.
  intros Hf. unfold mongodb.DeleteOldLogs. rewrite mongo_rpc_no_faults by done.
  simpl. rewrite Hf. f_equal. apply list_filter_iff. intros l. lia.
Qed.

(** X13: with MongoDB reachable, [CleanExpiredLogs(retentionDays)] of the
    log manager returns no error and keeps, in their order, exactly the
    logs that ended at or after the cutoff, the unix time of
    [time.Now().AddDate(0, 0, -retentionDays)] ([retentionDays] of zero
    or less counting as 30); so no log that ended earlier remains and
    none that ended later is lost.  [CleanExpiredLogs] of the log sink
    leaves the same collection. *)
Theorem CleanExpiredLogs_retention `{Calendar} (now : Time) (retentionDays : Z)
    (db : mongodb.Store) :
  mongodb.faults db = [] →
  let days := if retentionDays <=? 0 then 30 else retentionDays in
  let cutoff := Unix (AddDate_days now (- days)) in
  ∃ db' : mongodb.Store,
    logmgr.CleanExpiredLogs now retentionDays db = (None, db') ∧
    logsink.CleanExpiredLogs now retentionDays db = db' ∧
    mongodb.collection db' =
      filter (fun l => cutoff <= EndTime l) (mongodb.collection db) ∧
    (∀ l : JobLog, l ∈ mongodb.collection db' → cutoff <= EndTime l) ∧
    (∀ l : JobLog, l ∈ mongodb.collection db → cutoff <= EndTime l →
       l ∈ mongodb.collection db').
Proof.
  intros Hf days cutoff.
  pose proof (DeleteOldLogs_no_faults (AddDate_days now (- days)) db Hf) as Hdel.
  fold cutoff in Hdel.
  exists (mongodb.DeleteOldLogs (AddDate_days now (- days)) db).2.
  split; [|split; [|split; [|split]]].
  - unfold logmgr.CleanExpiredLogs. fold days.
    unfold mongodb.DeleteOldLogs. by rewrite mongo_rpc_no_faults.
  - reflexivity.
  - by rewrite Hdel.
  - intros l. rewrite Hdel. simpl. rewrite list_elem_of_filter. tauto.
  - intros l Hin Hle. rewrite Hdel. simpl. rewrite list_elem_of_filter. tauto.
Qed.

Lemma CleanExpiredLogs_retention_witness :
  mongodb.faults demo.logdb = [] ∧
  ∃ db' : mongodb.Store,
    @logmgr.CleanExpiredLogs demo.utc (30 * 86400 * 1000000000 + 250000000000) 0
      demo.logdb = (None, db') ∧
    mongodb.collection db' =
      filter (fun l => 250 <= EndTime l) (mongodb.collection demo.logdb).
Proof.
  split; [reflexivity|].
  destruct (@CleanExpiredLogs_retention demo.utc
              (30 * 86400 * 1000000000 + 250000000000) 0 demo.logdb eq_refl)
    as (db' & Hclean & _ & Hkept & _).
  exists db'. split; [exact Hclean|exact Hkept].
Defined.

Lemma GetJobLog_no_faults (jobName : string) (db : mongodb.Store) :
  mongodb.faults db = [] →
  logmgr.GetJobLog jobName db =
    match merge_sort mongodb.by_startTime_desc
            (filter (fun l => mongodb.job_filter jobName l = true)
               (mongodb.collection db)) with
    | [] => (inl ErrJobNotFound, db)
    | log :: _ => (inr log, db)
    end.
Proof.
  intros Hf. unfold logmgr.GetJobLog, bind.
  rewrite FindJobLogs_no_faults by (done || lia).
  change (Z.to_nat 0) with 0%nat. change (Z.to_nat 1) with 1%nat.
  rewrite drop_0.
  by destruct (merge_sort _ _).
Qed.

(** X14: with MongoDB reachable, [GetJobLog(jobName)] fails with
    [ErrJobNotFound] when the collection holds no log of the job, and
    otherwise returns one of the job's logs whose start time is the
    greatest among them. *)
Theorem GetJobLog_latest (jobName : string) (db : mongodb.Store) :
  mongodb.faults db = [] →
  let selected :=
    filter (fun l => mongodb.job_filter jobName l = true) (mongodb.collection db) in
  (selected = [] → logmgr.GetJobLog jobName db = (inl ErrJobNotFound, db)) ∧
  (selected ≠ [] →
     ∃ log : JobLog,
       logmgr.GetJobLog jobName db = (inr log, db) ∧
       log ∈ selected ∧
       ∀ l : JobLog, l ∈ selected → StartTime l <= StartTime log).
Proof.
  intros Hf selected. rewrite GetJobLog_no_faults by done. fold selected.
  pose proof (merge_sort_Permutation mongodb.by_startTime_desc selected) as Hperm.
  pose proof (sorted_newest_first selected) as Hsorted.
  destruct (merge_sort mongodb.by_startTime_desc selected) as [|log rest].
  - split; [done|]. intros Hne. by apply Permutation_nil in Hperm.
  - split.
    + intros ->. by apply Permutation_nil_r in Hperm.
    + intros _. exists log. split; [done|]. split.
      * rewrite <- Hperm. apply list_elem_of_here.
      * intros l Hl. rewrite <- Hperm in Hl.
        apply StronglySorted_inv in Hsorted as [_ Hall].
        apply elem_of_cons in Hl as [->|Hl]; [done|].
        rewrite Forall_forall in Hall. by apply Hall.
Qed.

Lemma GetJobLog_latest_witness :
  mongodb.faults demo.logdb = [] ∧
  ∃ log : JobLog,
    logmgr.GetJobLog "backup" demo.logdb = (inr log, demo.logdb) ∧
    StartTime demo.log_ok <= StartTime log.
Proof.
  split; [reflexivity|].
  destruct (GetJobLog_latest "backup" demo.logdb eq_refl) as [_ Hsome].
  destruct Hsome as (log & Hget & _ & Hmax); [done|].
  exists log. split; [exact Hget|].
  apply Hmax. apply list_elem_of_here.
Defined.

(** The page and page size [ListLogs] works with. *)
Lemma ListLogs_success (jobName : string) (page pageSize : Z) (db : mongodb.Store) :
  mongodb.faults db = [] →
  page <= 2 ^ 56 →
  let page' := if page <=? 0 then 1 else page in
  let pageSize' :=
    if pageSize <=? 0 then 10 else if pageSize >? 100 then 100 else pageSize in
  let selected :=
    filter (fun l => mongodb.job_filter jobName l = true) (mongodb.collection db) in
  1 <= pageSize' <= 100 ∧
  logmgr.ListLogs jobName page pageSize db =
    ((take (Z.to_nat pageSize')
        (drop (Z.to_nat ((page' - 1) * pageSize'))
           (merge_sort mongodb.by_startTime_desc selected)),
      Z.of_nat (length selected), None), db).
Proof.
  intros Hf Hpage page' pageSize' selected.
  assert (Hp : 1 <= page' <= 2 ^ 56).
  { subst page'. destruct (Z.leb_spec page 0); lia. }
  assert (Hsize : 1 <= pageSize' <= 100).
  { subst pageSize'. destruct (Z.leb_spec pageSize 0); [lia|].
    rewrite Z.gtb_ltb. destruct (Z.ltb_spec 100 pageSize); lia. }
  split; [exact Hsize|].
  assert (Hcode : (if (if pageSize <=? 0 then DefaultPageSize else pageSize)
                        >? MaxPageSize
                   then MaxPageSize
                   else if pageSize <=? 0 then DefaultPageSize else pageSize)
                  = pageSize').
  { subst pageSize'. unfold DefaultPageSize, MaxPageSize.
    by destruct (Z.leb_spec pageSize 0). }
  unfold logmgr.ListLogs. rewrite Hcode.
  change (if page <=? 0 then DefaultPage else page) with page'.
  rewrite (int64_id ((page' - 1) * pageSize')) by (unfold is_int64; nia).
  rewrite FindJobLogs_no_faults by (try done; nia).
  by rewrite CountJobLogs_no_faults.
Qed.

(** X15: with MongoDB reachable and a page number of at most 2^56,
    [ListLogs] returns no error and at most 100 records, no more than the
    requested page size when that lies between 1 and 100, and no more
    than the total it reports; the records are in descending order of
    start time and each of them is a log of the collection that matches
    the job name. *)
Theorem ListLogs_page (jobName : string) (page pageSize : Z) (db : mongodb.Store) :
  mongodb.faults db = [] →
  page <= 2 ^ 56 →
  ∃ (logs : list JobLog) (total : Z),
    logmgr.ListLogs jobName page pageSize db = ((logs, total, None), db) ∧
    Z.of_nat (length logs) <= 100 ∧
    (1 <= pageSize <= 100 → Z.of_nat (length logs) <= pageSize) ∧
    Z.of_nat (length logs) <= total ∧
    StronglySorted mongodb.by_startTime_desc logs ∧
    ∀ l : JobLog, l ∈ logs →
      l ∈ mongodb.collection db ∧ mongodb.job_filter jobName l = true.
Proof.
  intros Hf Hpage.
  destruct (ListLogs_success jobName page pageSize db Hf Hpage) as [Hsize Hlist].
  cbv zeta in Hsize, Hlist.
  set (pageSize' := if pageSize <=? 0 then 10
                    else if pageSize >? 100 then 100 else pageSize) in *.
  set (selected := filter (fun l => mongodb.job_filter jobName l = true)
                     (mongodb.collection db)) in *.
  set (skip := Z.to_nat ((((if page <=? 0 then 1 else page)) - 1) * pageSize')) in *.
  pose proof (merge_sort_Permutation mongodb.by_startTime_desc selected) as Hperm.
  eexists _, _. split; [exact Hlist|].
  assert (Hlen : (length (take (Z.to_nat pageSize')
                     (drop skip (merge_sort mongodb.by_startTime_desc selected)))
                  ≤ Z.to_nat pageSize')%nat).
  { rewrite length_take. lia. }
  assert (Hlen' : (length (take (Z.to_nat pageSize')
                     (drop skip (merge_sort mongodb.by_startTime_desc selected)))
                  ≤ length selected)%nat).
  { rewrite length_take, length_drop, (Permutation_length Hperm). lia. }
  split; [lia|]. split.
  { intros Hps.
    assert (Heq : pageSize' = pageSize).
    { subst pageSize'. destruct (Z.leb_spec pageSize 0); [lia|].
      rewrite Z.gtb_ltb. destruct (Z.ltb_spec 100 pageSize); lia. }
    lia. }
  split; [lia|]. split.
  { apply StronglySorted_take, StronglySorted_drop, sorted_newest_first. }
  intros l Hl. apply elem_of_take in Hl as (i & Hi & _).
  rewrite lookup_drop in Hi.
  assert (Hin : l ∈ selected).
  { rewrite <- Hperm. apply list_elem_of_lookup. eauto. }
  subst selected. apply list_elem_of_filter in Hin. tauto.
Qed.

Lemma ListLogs_page_witness :
  mongodb.faults demo.logdb = [] ∧
  ∃ (logs : list JobLog) (total : Z),
    logmgr.ListLogs "backup" 1 1 demo.logdb = ((logs, total, None), demo.logdb) ∧
    Z.of_nat (length logs) <= 1 ∧ Z.of_nat (length logs) <= total.
Proof.
  split; [reflexivity|].
  destruct (ListLogs_page "backup" 1 1 demo.logdb eq_refl) as
    (logs & total & Hlist & _ & Hsize & Htotal & _); [by vm_compute|].
  exists logs, total. split; [exact Hlist|]. split; [apply Hsize; lia|exact Htotal].
Defined.

(** X28: with MongoDB reachable and a page number of at most 2^56, the
    handler [listJobLogs] answers code 0, and the [page] and [size] it
    reports are the numbers of the request as received, not the clamped
    ones [ListLogs] worked with: whatever [size] says, the answer holds
    at most 100 records. *)
Theorem listJobLogs_reports_request (jobName : string) (page pageSize : Z)
    (db : mongodb.Store) :
  mongodb.faults db = [] →
  page <= 2 ^ 56 →
  ∃ (logs : list JobLog) (total : Z),
    log_handler.listJobLogs jobName page pageSize db =
      (log_handler.mkResponse ApiSuccess "success"
         (Some (log_handler.mkLogPage logs total page pageSize)), db) ∧
    logmgr.ListLogs jobName page pageSize db = ((logs, total, None), db) ∧
    Z.of_nat (length logs) <= 100.
Proof.
  intros Hf Hpage.
  destruct (ListLogs_success jobName page pageSize db Hf Hpage) as [Hsize Hlist].
  cbv zeta in Hsize, Hlist.
  eexists _, _. split; [|split; [exact Hlist|]].
  - unfold log_handler.listJobLogs. by rewrite Hlist.
  - rewrite length_take. lia.
Qed.

Lemma listJobLogs_reports_request_witness :
  mongodb.faults demo.logdb = [] ∧
  ∃ (logs : list JobLog) (total : Z),
    log_handler.listJobLogs "" 0 500 demo.logdb =
      (log_handler.mkResponse ApiSuccess "success"
         (Some (log_handler.mkLogPage logs total 0 500)), demo.logdb) ∧
    Z.of_nat (length logs) <= 100.
Proof.
  split; [reflexivity|].
  destruct (listJobLogs_reports_request "" 0 500 demo.logdb eq_refl) as
    (logs & total & Hresp & _ & Hlen); [by vm_compute|].
  exists logs, total. split; assumption.
Defined.

(** X16: when one of the three round trips of [ListLogs] (the query, the
    cursor, the count) fails, the handler [listJobLogs] answers code 2001
    without data, also when only the count failed and the records had
    been fetched; [ListLogs] itself then returns those records with a
    total of 0 and the error. *)
Theorem listJobLogs_on_failure (jobName : string) (page pageSize : Z)
    (f1 f2 f3 : bool) (fs : list bool) (db : mongodb.Store) :
  mongodb.faults db = f1 :: f2 :: f3 :: fs →
  f1 || f2 || f3 = true →
  (∃ db' : mongodb.Store,
     log_handler.listJobLogs jobName page pageSize db =
       (log_handler.mkResponse ApiDbError "failed to list job logs: " None, db')) ∧
  (f1 = false → f2 = false → page <= 2 ^ 56 →
     ∃ logs : list JobLog,
       logmgr.ListLogs jobName page pageSize db =
         ((logs, 0, Some (MongoError "count" LogCollectionName)),
          mongodb.mkStore (mongodb.collection db) fs) ∧
       (logmgr.ListLogs jobName page pageSize
          (mongodb.mkStore (mongodb.collection db) [])).1.1.1 = logs).
Proof.
  intros Hf Hor. destruct db as [coll faults]; simpl in Hf; subst faults. split.
  - unfold log_handler.listJobLogs, logmgr.ListLogs, mongodb.FindJobLogs,
      mongodb.CountJobLogs, mongodb.rpc; simpl.
    destruct f1; simpl; [by eexists|].
    destruct (0 <=? _); simpl; [|by eexists].
    destruct f2; simpl; [by eexists|].
    destruct f3; simpl; [by eexists|done].
  - intros -> -> Hpage. simpl in Hor. subst f3.
    destruct (ListLogs_success jobName page pageSize (mongodb.mkStore coll [])
                eq_refl Hpage) as [Hsize Hok].
    cbv zeta in Hsize, Hok. cbn [mongodb.collection]. rewrite Hok.
    eexists. split; [|reflexivity].
    revert Hok.
    unfold logmgr.ListLogs, mongodb.FindJobLogs, mongodb.CountJobLogs,
      mongodb.rpc; simpl.
    destruct (0 <=? _); simpl; [|done].
    intros [= <-]. reflexivity.
Qed.

Lemma listJobLogs_on_failure_witness :
  ∃ db db' : mongodb.Store,
    mongodb.faults db = [false; false; true] ∧
    log_handler.listJobLogs "" 1 10 db =
      (log_handler.mkResponse ApiDbError "failed to list job logs: " None, db').
Proof.
  exists (mongodb.mkStore [demo.log_ok] [false; false; true]).
  destruct (listJobLogs_on_failure "" 1 10 false false true []
              (mongodb.mkStore [demo.log_ok] [false; false; true]) eq_refl eq_refl)
    as [[db' Hresp] _].
  exists db'. split; [reflexivity|exact Hresp].
Defined.

(** ** The job cache of the worker, continued *)

Section job_cache.
Context `{Json}.

Lemma handleWatchEvent_keyed (event : worker_jobmgr.Event)
    (jm : worker_jobmgr.JobManager) :
  (∀ (n : string) (j : Job), worker_jobmgr.jobsCache jm !! n = Some j → Name j = n) →
  ∀ (n : string) (j : Job),
    worker_jobmgr.jobsCache (worker_jobmgr.handleWatchEvent event jm).2 !! n = Some j →
    Name j = n.
Proof.
  intros Hinv n j. unfold worker_jobmgr.handleWatchEvent.
  destruct (worker_jobmgr.Type_ event).
  - destruct (Unmarshal (worker_jobmgr.KvValue event)) as [job|]; simpl; [|apply Hinv].
    destruct (decide (Name job = n)) as [<-|Hne].
    + rewrite lookup_insert_eq. by intros [= <-].
    + rewrite lookup_insert_ne by done. apply Hinv.
  - destruct (worker_jobmgr.jobsCache jm !! _) as [job|]; simpl; [|apply Hinv].
    intros Hl. apply lookup_delete_Some in Hl as [_ Hl]. by apply Hinv.
Qed.

Lemma loadJobs_fold_keyed (kvs : list etcd.KeyValue) (jm : worker_jobmgr.JobManager) :
  (∀ (n : string) (j : Job), worker_jobmgr.jobsCache jm !! n = Some j → Name j = n) →
  ∀ (n : string) (j : Job),
    worker_jobmgr.jobsCache
      (fold_left
         (fun jm kv =>
            match Unmarshal (etcd.Value kv) with
            | None => jm
            | Some job =>
                worker_jobmgr.mkJobManager
                  (<[Name job := job]> (worker_jobmgr.jobsCache jm))
                  (worker_jobmgr.eventChan jm)
            end) kvs jm) !! n = Some j →
    Name j = n.
Proof.
  revert jm. induction kvs as [|kv kvs IH]; intros jm Hinv; simpl; [exact Hinv|].
  apply IH. destruct (Unmarshal (etcd.Value kv)) as [job|]; simpl; [|exact Hinv].
  intros n j. destruct (decide (Name job = n)) as [<-|Hne].
  - rewrite lookup_insert_eq. by intros [= <-].
  - rewrite lookup_insert_ne by done. apply Hinv.
Qed.

(** X17: the cache of the worker is keyed by job name.  If every cached
    job sits under its own name, this is still so after [loadJobs]
    (whether etcd answers or not) and after [handleWatchEvent] on any
    watch event; hence [GetJob(name)] only ever returns a job of that
    name. *)
Theorem jobsCache_keyed_by_name (event : worker_jobmgr.Event)
    (jm : worker_jobmgr.JobManager) (c : etcd.Store) :
  (∀ (n : string) (j : Job), worker_jobmgr.jobsCache jm !! n = Some j → Name j = n) →
  (∀ (n : string) (j : Job),
     worker_jobmgr.GetJob n (worker_jobmgr.loadJobs jm c).1.2 = Some j → Name j = n) ∧
  (∀ (n : string) (j : Job),
     worker_jobmgr.GetJob n (worker_jobmgr.handleWatchEvent event jm).2 = Some j →
     Name j = n).
Proof.
  intros Hinv. split.
  - unfold worker_jobmgr.GetJob, worker_jobmgr.loadJobs.
    destruct (etcd.GetWithPrefix JobSaveDir c) as [[err|kvs] c']; simpl.
    + exact Hinv.
    + by apply loadJobs_fold_keyed.
  - unfold worker_jobmgr.GetJob. by apply handleWatchEvent_keyed.
Qed.

(** X18: the watch loop never blocks on its event channel and never lets
    it grow past its capacity of 1000.  When there is room the event made
    by [handleWatchEvent] is put at the end of the channel; when the
    channel is full the event is lost, although the cache has already
    been updated by it. *)
Theorem dispatchWatchEvent_bounded (event : worker_jobmgr.Event)
    (jm : worker_jobmgr.JobManager) :
  (length (worker_jobmgr.eventChan jm) ≤ worker_jobmgr.eventChanCap)%nat →
  let jm' := worker_jobmgr.dispatchWatchEvent event jm in
  (length (worker_jobmgr.eventChan jm') ≤ worker_jobmgr.eventChanCap)%nat ∧
  worker_jobmgr.jobsCache jm' =
    worker_jobmgr.jobsCache (worker_jobmgr.handleWatchEvent event jm).2 ∧
  (length (worker_jobmgr.eventChan jm) = worker_jobmgr.eventChanCap →
   worker_jobmgr.eventChan jm' = worker_jobmgr.eventChan jm) ∧
  ((length (worker_jobmgr.eventChan jm) < worker_jobmgr.eventChanCap)%nat →
   worker_jobmgr.eventChan jm' =
     worker_jobmgr.eventChan jm ++
       option_list (worker_jobmgr.handleWatchEvent event jm).1).
Proof.
  intros Hcap jm'. subst jm'. unfold worker_jobmgr.dispatchWatchEvent.
  assert (Hchan : worker_jobmgr.eventChan (worker_jobmgr.handleWatchEvent event jm).2
                  = worker_jobmgr.eventChan jm).
  { unfold worker_jobmgr.handleWatchEvent.
    destruct (worker_jobmgr.Type_ event);
      [destruct (Unmarshal _)|destruct (worker_jobmgr.jobsCache jm !! _)]; done. }
  destruct (worker_jobmgr.handleWatchEvent event jm) as [[ev|] jm1]; simpl in *.
  - rewrite Hchan.
    destruct (Nat.ltb_spec (length (worker_jobmgr.eventChan jm))
                worker_jobmgr.eventChanCap) as [Hlt|Hge]; simpl.
    + rewrite length_app. simpl. repeat split; try done; lia.
    + rewrite Hchan. repeat split; try done; lia.
  - rewrite Hchan, app_nil_r. repeat split; done.
Qed.

End job_cache.

Lemma jobsCache_keyed_by_name_witness :
  (∀ (n : string) (j : Job),
     worker_jobmgr.jobsCache (worker_jobmgr.mkJobManager ∅ []) !! n = Some j →
     Name j = n) ∧
  ∀ (n : string) (j : Job),
    worker_jobmgr.GetJob n
      (@worker_jobmgr.loadJobs demo.json (worker_jobmgr.mkJobManager ∅ [])
         demo.store1).1.2 = Some j →
    Name j = n.
Proof.
  assert (Hempty : ∀ (n : string) (j : Job),
            worker_jobmgr.jobsCache (worker_jobmgr.mkJobManager ∅ []) !! n = Some j →
            Name j = n).
  { intros n j. simpl. by rewrite lookup_empty. }
  split; [exact Hempty|].
  apply (@jobsCache_keyed_by_name demo.json
           (worker_jobmgr.mkEvent worker_jobmgr.EventTypeDelete "" "")
           (worker_jobmgr.mkJobManager ∅ []) demo.store1 Hempty).
Defined.

Lemma dispatchWatchEvent_bounded_witness :
  (length (worker_jobmgr.eventChan (worker_jobmgr.mkJobManager ∅ []))
     ≤ worker_jobmgr.eventChanCap)%nat ∧
  worker_jobmgr.eventChan
    (@worker_jobmgr.dispatchWatchEvent demo.json
       (worker_jobmgr.mkEvent worker_jobmgr.EventTypePut "/cron/jobs/backup" demo.data1)
       (worker_jobmgr.mkJobManager ∅ []))
  = [mkJobEvent JobEventSave demo.stored_job1].
Proof.
  assert (Hcap : (length (worker_jobmgr.eventChan (worker_jobmgr.mkJobManager ∅ []))
                    ≤ worker_jobmgr.eventChanCap)%nat)
    by (simpl; unfold worker_jobmgr.eventChanCap; lia).
  split; [exact Hcap|].
  destruct (@dispatchWatchEvent_bounded demo.json
              (worker_jobmgr.mkEvent worker_jobmgr.EventTypePut "/cron/jobs/backup"
                 demo.data1)
              (worker_jobmgr.mkJobManager ∅ []) Hcap) as (_ & _ & _ & Hroom).
  rewrite Hroom; [reflexivity|].
  simpl; unfold worker_jobmgr.eventChanCap; lia.
Defined.

(** ** The log sink, continued *)

Lemma InsertMany_no_faults (docs : list JobLog) (db : mongodb.Store) :
  mongodb.faults db = [] →
  mongodb.InsertMany docs db =
    (inr tt, mongodb.mkStore (mongodb.collection db ++ docs) []).
Proof.
  intros Hf. unfold mongodb.InsertMany. rewrite mongo_rpc_no_faults by done.
  by rewrite Hf.
Qed.

Lemma commitLogs_no_faults (l : logsink.LogSink) (db : mongodb.Store) :
  mongodb.faults db = [] →
  mongodb.collection (logsink.commitLogs l db).2 =
    mongodb.collection db ++ logsink.logBatch l ∧
  mongodb.faults (logsink.commitLogs l db).2 = [] ∧
  logsink.logBatch (logsink.commitLogs l db).1 = [] ∧
  logsink.logChan (logsink.commitLogs l db).1 = logsink.logChan l ∧
  logsink.batchSize (logsink.commitLogs l db).1 = logsink.batchSize l.
Proof.
  intros Hf. unfold logsink.commitLogs.
  destruct (logsink.logBatch l) as [|log batch] eqn:Hb.
  - simpl. by rewrite app_nil_r.
  - rewrite InsertMany_no_faults by done. done.
Qed.

(** X20: [commitLogs] with a batch that is not empty always empties the
    batch and leaves the ingress channel alone.  With MongoDB reachable
    the collection grows by the batch, in order; when the insert fails
    the collection is as before, so the logs of the batch are lost. *)
Theorem commitLogs_outcome (l : logsink.LogSink) (db : mongodb.Store) :
  logsink.logBatch l ≠ [] →
  logsink.logBatch (logsink.commitLogs l db).1 = [] ∧
  logsink.logChan (logsink.commitLogs l db).1 = logsink.logChan l ∧
  (mongodb.faults db = [] →
     mongodb.collection (logsink.commitLogs l db).2 =
       mongodb.collection db ++ logsink.logBatch l) ∧
  (∀ fs : list bool, mongodb.faults db = true :: fs →
     mongodb.collection (logsink.commitLogs l db).2 = mongodb.collection db).
Proof.
  intros Hne. unfold logsink.commitLogs.
  destruct (logsink.logBatch l) as [|log batch] eqn:Hb; [done|].
  unfold mongodb.InsertMany, mongodb.rpc.
  destruct (mongodb.faults db) as [|[] fs] eqn:Hf; simpl;
    repeat split; try done; intros fs' [=].
Qed.

Lemma commitLogs_outcome_witness :
  logsink.logBatch (logsink.mkLogSink [] [demo.log_ok] 100 []) ≠ [] ∧
  mongodb.collection
    (logsink.commitLogs (logsink.mkLogSink [] [demo.log_ok] 100 [])
       (mongodb.mkStore [] [true])).2 = [].
Proof.
  assert (Hne : logsink.logBatch (logsink.mkLogSink [] [demo.log_ok] 100 []) ≠ [])
    by done.
  split; [exact Hne|].
  destruct (commitLogs_outcome (logsink.mkLogSink [] [demo.log_ok] 100 [])
              (mongodb.mkStore [] [true]) Hne) as (_ & _ & _ & Hlost).
  exact (Hlost [] eq_refl).
Defined.

(** X19: the batch of the log sink stays below the batch size.  For a
    batch size of at least 1 and a batch shorter than it, the batch is
    again shorter than the batch size after a log has been taken in
    ([onLog]), after a receive from the ingress channel, and after the
    commit timer has fired; the batch size itself never changes. *)
Theorem logBatch_below_batchSize (log : JobLog) (l : logsink.LogSink)
    (db : mongodb.Store) :
  1 <= logsink.batchSize l →
  Z.of_nat (length (logsink.logBatch l)) < logsink.batchSize l →
  (Z.of_nat (length (logsink.logBatch (logsink.onLog log l db).1))
     < logsink.batchSize (logsink.onLog log l db).1 ∧
   logsink.batchSize (logsink.onLog log l db).1 = logsink.batchSize l) ∧
  (Z.of_nat (length (logsink.logBatch (logsink.onTimer l db).1))
     < logsink.batchSize (logsink.onTimer l db).1 ∧
   logsink.batchSize (logsink.onTimer l db).1 = logsink.batchSize l) ∧
  (∀ (l' : logsink.LogSink) (db' : mongodb.Store),
     logsink.receive l db = Some (l', db') →
     Z.of_nat (length (logsink.logBatch l')) < logsink.batchSize l' ∧
     logsink.batchSize l' = logsink.batchSize l).
Proof.
  intros Hsize Hlen.
  assert (Hcommit : ∀ l0 db0,
            logsink.logBatch (logsink.commitLogs l0 db0).1 = [] ∧
            logsink.batchSize (logsink.commitLogs l0 db0).1 = logsink.batchSize l0).
  { intros l0 db0. unfold logsink.commitLogs.
    destruct (logsink.logBatch l0) eqn:Hb; [simpl; by rewrite Hb|].
    by destruct (mongodb.InsertMany _ _) as [[] ?]. }
  assert (HonLog : ∀ l0 : logsink.LogSink,
            1 <= logsink.batchSize l0 →
            Z.of_nat (length (logsink.logBatch l0)) < logsink.batchSize l0 →
            Z.of_nat (length (logsink.logBatch (logsink.onLog log l0 db).1))
              < logsink.batchSize (logsink.onLog log l0 db).1 ∧
            logsink.batchSize (logsink.onLog log l0 db).1 = logsink.batchSize l0).
  { intros l0 Hs Hl. unfold logsink.onLog. simpl.
    destruct (Z.leb_spec (logsink.batchSize l0)
                (Z.of_nat (length (logsink.logBatch l0 ++ [log])))) as [Hfull|Hroom].
    - destruct (Hcommit (logsink.mkLogSink (logsink.logChan l0)
                           (logsink.logBatch l0 ++ [log]) (logsink.batchSize l0)
                           (logsink.logger l0)) db) as [Hb Hs'].
      rewrite Hb, Hs'. simpl. lia.
    - simpl. done. }
  split; [by apply HonLog|]. split.
  - unfold logsink.onTimer.
    destruct (0 <? Z.of_nat (length (logsink.logBatch l))); [|done].
    destruct (Hcommit l db) as [Hb Hs']. rewrite Hb, Hs'. simpl. lia.
  - intros l' db'. unfold logsink.receive.
    destruct (logsink.logChan l) as [|log0 rest]; [done|].
    intros [= Hrecv].
    assert (Hgen : ∀ log1 : JobLog,
              Z.of_nat (length (logsink.logBatch
                 (logsink.onLog log1
                    (logsink.mkLogSink rest (logsink.logBatch l) (logsink.batchSize l)
                       (logsink.logger l)) db).1))
                < logsink.batchSize
                    (logsink.onLog log1
                       (logsink.mkLogSink rest (logsink.logBatch l)
                          (logsink.batchSize l) (logsink.logger l)) db).1 ∧
              logsink.batchSize
                (logsink.onLog log1
                   (logsink.mkLogSink rest (logsink.logBatch l) (logsink.batchSize l)
                      (logsink.logger l)) db).1 = logsink.batchSize l).
    { intros log1. unfold logsink.onLog. simpl.
      destruct (Z.leb_spec (logsink.batchSize l)
                  (Z.of_nat (length (logsink.logBatch l ++ [log1])))) as [Hfull|Hroom].
      - destruct (Hcommit (logsink.mkLogSink rest (logsink.logBatch l ++ [log1])
                             (logsink.batchSize l) (logsink.logger l)) db) as [Hb Hs'].
        rewrite Hb, Hs'. simpl. lia.
      - simpl. done. }
    specialize (Hgen log0). by rewrite Hrecv in Hgen.
Qed.

Lemma logBatch_below_batchSize_witness :
  1 <= logsink.batchSize (logsink.mkLogSink [] [demo.log_ok] 2 []) ∧
  Z.of_nat (length (logsink.logBatch (logsink.mkLogSink [] [demo.log_ok] 2 []))) <
    logsink.batchSize (logsink.mkLogSink [] [demo.log_ok] 2 []) ∧
  Z.of_nat (length (logsink.logBatch
     (logsink.onLog demo.log_failed (logsink.mkLogSink [] [demo.log_ok] 2 [])
        (mongodb.mkStore [] [])).1)) < 2.
Proof.
  assert (H1 : 1 <= logsink.batchSize (logsink.mkLogSink [] [demo.log_ok] 2 []))
    by (simpl; lia).
  assert (H2 : Z.of_nat (length (logsink.logBatch
                 (logsink.mkLogSink [] [demo.log_ok] 2 []))) <
               logsink.batchSize (logsink.mkLogSink [] [demo.log_ok] 2 []))
    by (simpl; lia).
  split; [exact H1|]. split; [exact H2|].
  destruct (logBatch_below_batchSize demo.log_failed
              (logsink.mkLogSink [] [demo.log_ok] 2 []) (mongodb.mkStore [] []) H1 H2)
    as [[Hlt Hsame] _].
  rewrite Hsame in Hlt. exact Hlt.
Defined.

Lemma onLog_no_faults (log : JobLog) (l : logsink.LogSink) (db : mongodb.Store) :
  mongodb.faults db = [] →
  mongodb.collection (logsink.onLog log l db).2 ++
    logsink.logBatch (logsink.onLog log l db).1 =
    mongodb.collection db ++ logsink.logBatch l ++ [log] ∧
  mongodb.faults (logsink.onLog log l db).2 = [] ∧
  logsink.logChan (logsink.onLog log l db).1 = logsink.logChan l.
Proof.
  intros Hf. unfold logsink.onLog. simpl.
  destruct (logsink.batchSize l <=? _).
  - destruct (commitLogs_no_faults
                (logsink.mkLogSink (logsink.logChan l) (logsink.logBatch l ++ [log])
                   (logsink.batchSize l) (logsink.logger l)) db Hf)
      as (Hc & Hf' & Hb & Hch & _).
    rewrite Hc, Hf', Hb, Hch. simpl. by rewrite app_nil_r.
  - done.
Qed.

Lemma drain_no_faults (n : nat) (l : logsink.LogSink) (db : mongodb.Store) :
  mongodb.faults db = [] →
  (length (logsink.logChan l) ≤ n)%nat →
  mongodb.collection (logsink.drain n l db).2 ++
    logsink.logBatch (logsink.drain n l db).1 =
    mongodb.collection db ++ logsink.logBatch l ++ logsink.logChan l ∧
  mongodb.faults (logsink.drain n l db).2 = [] ∧
  logsink.logChan (logsink.drain n l db).1 = [].
Proof.
  revert l db. induction n as [|n IH]; intros l db Hf Hlen.
  - destruct (logsink.logChan l) eqn:Hch; [|simpl in Hlen; lia].
    simpl. by rewrite Hch, !app_nil_r.
  - simpl. unfold logsink.receive.
    destruct (logsink.logChan l) as [|log rest] eqn:Hch.
    + simpl. by rewrite Hch, !app_nil_r.
    + set (l0 := logsink.mkLogSink rest (logsink.logBatch l) (logsink.batchSize l)
                   (logsink.logger l)).
      destruct (onLog_no_faults log l0 db Hf) as (Hc & Hf' & Hrest).
      destruct (logsink.onLog log l0 db) as [l1 db1] eqn:Hon. simpl in *.
      destruct (IH l1 db1 Hf') as (Hc' & Hf'' & Hch'); [rewrite Hrest; lia|].
      rewrite Hc', Hf'', Hch'. split; [|done].
      rewrite (app_assoc (mongodb.collection db1)), Hc, Hrest.
      by rewrite <- !app_assoc.
Qed.

(** X21: with MongoDB reachable no log is lost or reordered on the way
    through the sink.  Once the loop has emptied the ingress channel and
    [Stop] has been called, the collection is what it was followed by the
    logs that were in the batch and then those that were on the channel,
    and both the channel and the batch are empty. *)
Theorem drain_then_Stop_commits_all (n : nat) (l : logsink.LogSink)
    (db : mongodb.Store) :
  mongodb.faults db = [] →
  (length (logsink.logChan l) ≤ n)%nat →
  let '(l1, db1) := logsink.drain n l db in
  let '(l2, db2) := logsink.Stop l1 db1 in
  mongodb.collection db2 =
    mongodb.collection db ++ logsink.logBatch l ++ logsink.logChan l ∧
  logsink.logChan l2 = [] ∧ logsink.logBatch l2 = [].
Proof.
  intros Hf Hlen.
  destruct (drain_no_faults n l db Hf Hlen) as (Hc & Hf' & Hch).
  destruct (logsink.drain n l db) as [l1 db1]. simpl in *.
  destruct (commitLogs_no_faults l1 db1 Hf') as (Hc' & _ & Hb' & Hch' & _).
  unfold logsink.Stop.
  destruct (Z.ltb_spec 0 (Z.of_nat (length (logsink.logBatch l1)))) as [Hpos|Hzero].
  - destruct (logsink.commitLogs l1 db1) as [l2 db2]. simpl in *.
    by rewrite Hc', Hc, Hch', Hch.
  - destruct (logsink.logBatch l1) as [|x b] eqn:Hb; [|simpl in Hzero; lia].
    rewrite app_nil_r in Hc. by rewrite Hc, Hch.
Qed.

Lemma drain_then_Stop_commits_all_witness :
  mongodb.faults (mongodb.mkStore [] []) = [] ∧
  mongodb.collection
    (logsink.Stop
       (logsink.drain 3
          (logsink.mkLogSink [demo.log_failed; demo.log_timed_out] [demo.log_ok] 2 [])
          (mongodb.mkStore [] [])).1
       (logsink.drain 3
          (logsink.mkLogSink [demo.log_failed; demo.log_timed_out] [demo.log_ok] 2 [])
          (mongodb.mkStore [] [])).2).2
  = [demo.log_ok; demo.log_failed; demo.log_timed_out].
Proof.
  split; [reflexivity|].
  pose proof (drain_then_Stop_commits_all 3
                (logsink.mkLogSink [demo.log_failed; demo.log_timed_out]
                   [demo.log_ok] 2 [])
                (mongodb.mkStore [] []) eq_refl) as Hall.
  destruct (logsink.drain 3 _ _) as [l1 db1]. simpl.
  destruct (logsink.Stop l1 db1) as [l2 db2]. simpl.
  apply Hall. simpl. lia.
Defined.

(** ** The executor, continued *)

(** X22: the result channel with the senders waiting on it behaves as one
    first-in first-out queue.  As long as the buffer holds at most 1000
    results and senders wait only while it is full, the same is true
    after a send and after a receive; a send puts its result at the end
    of the queue (buffer followed by waiting senders); a receive returns
    the head of the queue and leaves the rest; and a receive finds the
    buffer empty only when the whole queue is empty. *)
Theorem jobResults_fifo (r : JobExecuteResult) (e : executor.Executor) :
  (length (executor.jobResults e) ≤ executor.jobResultsCap)%nat →
  (executor.parked e ≠ [] →
   length (executor.jobResults e) = executor.jobResultsCap) →
  ((length (executor.jobResults (executor.send r e)) ≤ executor.jobResultsCap)%nat ∧
   (executor.parked (executor.send r e) ≠ [] →
    length (executor.jobResults (executor.send r e)) = executor.jobResultsCap) ∧
   executor.jobResults (executor.send r e) ++ executor.parked (executor.send r e) =
     (executor.jobResults e ++ executor.parked e) ++ [r]) ∧
  match executor.recv e with
  | None => executor.jobResults e ++ executor.parked e = []
  | Some (r', e') =>
      executor.jobResults e ++ executor.parked e =
        r' :: (executor.jobResults e' ++ executor.parked e') ∧
      (length (executor.jobResults e') ≤ executor.jobResultsCap)%nat ∧
      (executor.parked e' ≠ [] →
       length (executor.jobResults e') = executor.jobResultsCap)
  end.
Proof.
  intros Hcap Hfull. destruct e as [buffer waiting]; simpl in *. split.
  - unfold executor.send; simpl.
    destruct (Nat.ltb_spec (length buffer) executor.jobResultsCap) as [Hlt|Hge]; simpl.
    + assert (waiting = []) as ->.
      { destruct waiting; [done|]. exfalso. assert (length buffer =
          executor.jobResultsCap) by by apply Hfull. lia. }
      rewrite length_app; simpl. repeat split; [lia|done|by rewrite !app_nil_r].
    + repeat split; [lia|intros _; lia|by rewrite app_assoc].
  - unfold executor.recv, executor.jobResultsCap in *; simpl.
    destruct buffer as [|r' rest]; simpl in *.
    + destruct waiting; [done|]. exfalso.
      assert (0 = 1000)%nat by by apply Hfull. lia.
    + destruct waiting as [|p ps]; simpl.
      * repeat split; [lia|done].
      * rewrite length_app; simpl. repeat split.
        -- by rewrite <- app_assoc.
        -- assert (S (length rest) = 1000)%nat by by apply Hfull. lia.
        -- intros _. assert (S (length rest) = 1000)%nat by by apply Hfull. lia.
Qed.

Lemma jobResults_fifo_witness :
  (length (executor.jobResults executor.NewExecutor) ≤ executor.jobResultsCap)%nat ∧
  executor.jobResults (executor.send demo.result1 executor.NewExecutor) ++
    executor.parked (executor.send demo.result1 executor.NewExecutor) =
    [demo.result1].
Proof.
  assert (Hcap : (length (executor.jobResults executor.NewExecutor)
                    ≤ executor.jobResultsCap)%nat)
    by (simpl; unfold executor.jobResultsCap; lia).
  split; [exact Hcap|].
  destruct (jobResults_fifo demo.result1 executor.NewExecutor Hcap) as [(_ & _ & Hq) _].
  { simpl. done. }
  exact Hq.
Defined.

(** X29: the log built from a result of the executor.  If the clock of
    the goroutine did not run backwards the log ends no earlier than it
    starts; it carries the name and command of the job that was
    dispatched; a log marked as timed out has exit code -1, and a log of
    a run without error has exit code 0 and no error text. *)
Theorem BuildJobLog_of_buildResult (workerID : string) (info : JobExecuteInfo)
    (startTime endTime : Time) (output : string) (o : executor.Outcome) :
  startTime <= endTime →
  let log :=
    executor.BuildJobLog workerID
      (executor.buildResult info startTime endTime output o) info in
  StartTime log <= EndTime log ∧
  JobName log = Name (InfoJob info) ∧
  LogCommand log = Command (InfoJob info) ∧
  (IsTimeout log = true → ExitCode log = -1) ∧
  (o = executor.Exited0 → ExitCode log = 0 ∧ Error log = "") ∧
  WorkerIP log = workerID.
Proof.
  intros Hle log. subst log.
  assert (Hunix : Unix startTime <= Unix endTime).
  { unfold Unix. apply Z.div_le_mono; lia. }
  destruct o as [|[code text|text] [[]|]]; simpl; repeat split; try done.
Qed.

Lemma BuildJobLog_of_buildResult_witness :
  6200000000 <= 6300000000 ∧
  StartTime (executor.BuildJobLog "w1"
               (executor.buildResult demo.info1 6200000000 6300000000 "hi"
                  executor.Exited0) demo.info1)
  <= EndTime (executor.BuildJobLog "w1"
                (executor.buildResult demo.info1 6200000000 6300000000 "hi"
                   executor.Exited0) demo.info1).
Proof.
  assert (Hle : 6200000000 <= 6300000000) by lia.
  split; [exact Hle|].
  apply (BuildJobLog_of_buildResult "w1" demo.info1 6200000000 6300000000 "hi"
           executor.Exited0 Hle).
Defined.

(** ** The scheduler, continued *)

Section scheduler_more.
Context `{Cronexpr}.

(** What [tryStartJob] can do to the scheduler: nothing, or enter the
    execution it started into the in-flight table. *)
Lemma tryStartJob_effect (ttl : Z) (realTime : Time)
    (plan : scheduler.JobSchedulePlan) (s : scheduler.Scheduler) (c : etcd.Store) :
  match (scheduler.tryStartJob ttl realTime plan s c).2 with
  | None => (scheduler.tryStartJob ttl realTime plan s c).1.1 = s
  | Some info =>
      scheduler.jobExecuting s !! Name (scheduler.PlanJob plan) = None ∧
      info = mkJobExecuteInfo (scheduler.PlanJob plan) (scheduler.NextTime plan)
               realTime ∧
      (scheduler.tryStartJob ttl realTime plan s c).1.1 =
        scheduler.mkScheduler (scheduler.jobPlans s)
          (<[Name (scheduler.PlanJob plan) := info]> (scheduler.jobExecuting s))
  end.
Proof.
  unfold scheduler.tryStartJob.
  destruct (scheduler.jobExecuting s !! Name (scheduler.PlanJob plan)) eqn:Hexec;
    [done|].
  destruct (joblock.TryLock ttl _ c) as [[[err|] jl] c1]; [done|].
  by destruct (joblock.Unlock jl c1) as [jl' c2].
Qed.

Lemma tryStartJob_plans (ttl : Z) (realTime : Time)
    (plan : scheduler.JobSchedulePlan) (s : scheduler.Scheduler) (c : etcd.Store) :
  scheduler.jobPlans (scheduler.tryStartJob ttl realTime plan s c).1.1 =
    scheduler.jobPlans s.
Proof.
  pose proof (tryStartJob_effect ttl realTime plan s c) as Heff.
  destruct ((scheduler.tryStartJob ttl realTime plan s c).2) as [info|].
  - destruct Heff as (_ & _ & ->). done.
  - by rewrite Heff.
Qed.

(** X24: the cases of [tryStartJob].  A job that is in the in-flight
    table is skipped without any call to etcd: whatever the store and its
    fault schedule, scheduler and store come back as they were.
    Otherwise, with etcd reachable: when the lock key of the job exists,
    nothing is started, the scheduler is as before and so are the keys of
    etcd.  When the lock key is free,
    the execution handed to the executor has the plan's job, the plan's
    fire time as planned time and the clock reading as dispatch time, it
    is entered into the in-flight table, and the lock key is gone again
    on return: the lock is held for the dispatch only. *)
Theorem tryStartJob_cases (ttl : Z) (realTime : Time)
    (plan : scheduler.JobSchedulePlan) (s : scheduler.Scheduler) (c : etcd.Store) :
  (is_Some (scheduler.jobExecuting s !! Name (scheduler.PlanJob plan)) →
     scheduler.tryStartJob ttl realTime plan s c = (s, c, None)) ∧
  (etcd.faults c = [] →
   scheduler.jobExecuting s !! Name (scheduler.PlanJob plan) = None →
   is_Some (etcd.kvs c !! (JobLockDir +:+ Name (scheduler.PlanJob plan))) →
     ∃ c' : etcd.Store,
       scheduler.tryStartJob ttl realTime plan s c = (s, c', None) ∧
       etcd.kvs c' = etcd.kvs c) ∧
  (etcd.faults c = [] →
   scheduler.jobExecuting s !! Name (scheduler.PlanJob plan) = None →
   etcd.kvs c !! (JobLockDir +:+ Name (scheduler.PlanJob plan)) = None →
     ∃ c' : etcd.Store,
       scheduler.tryStartJob ttl realTime plan s c =
         (scheduler.mkScheduler (scheduler.jobPlans s)
            (<[Name (scheduler.PlanJob plan) :=
                 mkJobExecuteInfo (scheduler.PlanJob plan)
                   (scheduler.NextTime plan) realTime]>
               (scheduler.jobExecuting s)),
          c',
          Some (mkJobExecuteInfo (scheduler.PlanJob plan)
                  (scheduler.NextTime plan) realTime)) ∧
       etcd.kvs c' !! (JobLockDir +:+ Name (scheduler.PlanJob plan)) = None).
Proof.
  set (name := Name (scheduler.PlanJob plan)).
  split; [|split].
  - intros [info Hexec]. unfold scheduler.tryStartJob. fold name. by rewrite Hexec.
  - intros Hf Hexec Hheld. eexists.
    unfold scheduler.tryStartJob. fold name. rewrite Hexec.
    unfold joblock.TryLock, joblock.NewJobLock; simpl.
    rewrite TryAcquireLock_held by done. split; reflexivity.
  - intros Hf Hexec Hfree.
    set (id := (etcd.lease_grant ttl c).1).
    set (c1 := etcd.kv_put (JobLockDir +:+ name) "" (Z.pos id) (etcd.lease_grant ttl c).2).
    assert (Hkey1 : etcd.kvs c1 !! (JobLockDir +:+ name) =
              Some (etcd.mkKeyValue (JobLockDir +:+ name) "" (Z.pos id)
                      (etcd.revision c + 1) (etcd.revision c + 1))).
    { subst c1. unfold etcd.kv_put; simpl. rewrite Hfree. apply lookup_insert_eq. }
    assert (Hlive : is_Some (etcd.leases c1 !! id)).
    { subst c1. simpl. apply lookup_insert_is_Some'. by left. }
    exists (etcd.lease_revoke (Z.pos id) c1). split.
    + unfold scheduler.tryStartJob. fold name. rewrite Hexec.
      unfold joblock.TryLock, joblock.NewJobLock; simpl.
      rewrite TryAcquireLock_free by done. fold id c1.
      unfold joblock.Unlock; simpl.
      by rewrite ReleaseLock_no_faults.
    + rewrite lease_revoke_lookup, Hkey1 by done. simpl. by rewrite decide_True.
Qed.

(** X27: a Save event for an enabled job whose expression parses puts a
    plan for the job into the table, with the next fire time after the
    time of handling; a Delete event for the same job right after leaves
    the plan table as it was without that job.  Neither event touches the
    in-flight table, so a running execution is not aborted. *)
Theorem Save_then_Delete (t1 t2 : Time) (job : Job) (expr : Expression)
    (s : scheduler.Scheduler) :
  Disabled job = false →
  Parse (CronExpr job) = Some expr →
  let s1 := scheduler.handleJobEvent t1 (mkJobEvent JobEventSave job) s in
  let s2 := scheduler.handleJobEvent t2 (mkJobEvent JobEventDelete job) s1 in
  scheduler.jobPlans s1 !! Name job =
    Some (scheduler.mkJobSchedulePlan job expr (Next expr t1)) ∧
  scheduler.jobPlans s2 = delete (Name job) (scheduler.jobPlans s) ∧
  scheduler.jobExecuting s1 = scheduler.jobExecuting s ∧
  scheduler.jobExecuting s2 = scheduler.jobExecuting s.
Proof.
  intros Hen Hparse s1 s2. subst s2 s1.
  unfold scheduler.handleJobEvent; simpl. rewrite Hen, Hparse. simpl.
  rewrite lookup_insert_eq. simpl.
  repeat split. by rewrite delete_insert_eq.
Qed.

End scheduler_more.

Lemma tryStartJob_cases_witness :
  etcd.faults demo.store0 = [] ∧
  ∃ c' : etcd.Store,
    @scheduler.tryStartJob demo.cronexpr 5 6100000000 demo.plan1
      (@scheduler.NewScheduler demo.cronexpr) demo.store0 =
      (scheduler.mkScheduler ∅ {["backup" := demo.info1]}, c', Some demo.info1) ∧
    etcd.kvs c' !! (JobLockDir +:+ "backup") = None.
Proof.
  split; [reflexivity|].
  destruct (@tryStartJob_cases demo.cronexpr 5 6100000000 demo.plan1
              (@scheduler.NewScheduler demo.cronexpr) demo.store0)
    as (_ & _ & Hfree).
  destruct (Hfree eq_refl eq_refl eq_refl) as (c' & Hstart & Hgone).
  exists c'. split; [exact Hstart|exact Hgone].
Defined.

Lemma Save_then_Delete_witness :
  Disabled demo.job1 = false ∧
  @Parse demo.cronexpr (CronExpr demo.job1) = Some tt ∧
  scheduler.jobPlans
    (@scheduler.handleJobEvent demo.cronexpr 8000000000
       (mkJobEvent JobEventDelete demo.job1)
       (@scheduler.handleJobEvent demo.cronexpr 7000000000
          (mkJobEvent JobEventSave demo.job1) (@scheduler.NewScheduler demo.cronexpr)))
  = delete "backup" ∅.
Proof.
  split; [reflexivity|]. split; [reflexivity|].
  apply (@Save_then_Delete demo.cronexpr 7000000000 8000000000 demo.job1 tt
           (@scheduler.NewScheduler demo.cronexpr) eq_refl eq_refl).
Defined.

Section ticking.
Context `{Cronexpr}.

Lemma tickPlan_plans (ttl : Z) (now : Time) (realTime : string -> Time)
    (s : scheduler.Scheduler) (c : etcd.Store) (started : list JobExecuteInfo)
    (name : string) (plan : scheduler.JobSchedulePlan) :
  scheduler.jobPlans s !! name = Some plan →
  scheduler.jobPlans
    (scheduler.tickPlan ttl now realTime (s, c, started) (name, plan)).1.1 =
    <[name := scheduler.mkJobSchedulePlan (scheduler.PlanJob plan)
                (scheduler.Expr plan)
                (if scheduler.NextTime plan <=? now
                 then Next (scheduler.Expr plan) now
                 else scheduler.NextTime plan)]> (scheduler.jobPlans s).
Proof.
  intros Hplan. unfold scheduler.tickPlan.
  destruct (scheduler.NextTime plan <=? now).
  - pose proof (tryStartJob_plans ttl (realTime name) plan s c) as Hsame.
    destruct (scheduler.tryStartJob ttl (realTime name) plan s c) as [[s' c'] d].
    simpl in *. by rewrite Hsame.
  - simpl. symmetry. apply insert_id. rewrite Hplan. by destruct plan.
Qed.

Lemma fold_tickPlan_plans (ttl : Z) (now : Time) (realTime : string -> Time)
    (entries : list (string * scheduler.JobSchedulePlan))
    (s : scheduler.Scheduler) (c : etcd.Store) (started : list JobExecuteInfo) :
  NoDup entries.*1 →
  (∀ (n : string) (p : scheduler.JobSchedulePlan),
     (n, p) ∈ entries → scheduler.jobPlans s !! n = Some p) →
  ∀ n : string,
    scheduler.jobPlans
      (fold_left (scheduler.tickPlan ttl now realTime) entries (s, c, started)).1.1
      !! n =
    if decide (n ∈ entries.*1)
    then (fun p => scheduler.mkJobSchedulePlan (scheduler.PlanJob p)
                     (scheduler.Expr p)
                     (if scheduler.NextTime p <=? now
                      then Next (scheduler.Expr p) now
                      else scheduler.NextTime p)) <$> scheduler.jobPlans s !! n
    else scheduler.jobPlans s !! n.
Proof.
  revert s c started.
  induction entries as [|[name plan] rest IH]; intros s c started Hnd Hin n.
  - case_decide as Hnil; [|reflexivity].
    simpl in Hnil. by apply elem_of_nil in Hnil.
  - simpl in Hnd. apply NoDup_cons in Hnd as [Hfresh Hnd].
    assert (Hplan : scheduler.jobPlans s !! name = Some plan).
    { apply Hin. apply list_elem_of_here. }
    pose proof (tickPlan_plans ttl now realTime s c started name plan Hplan) as Hstep.
    cbn [fold_left].
    destruct (scheduler.tickPlan ttl now realTime (s, c, started) (name, plan))
      as [[s1 c1] started1]. simpl in Hstep.
    rewrite (IH s1 c1 started1 Hnd).
    + rewrite Hstep. simpl.
      destruct (decide (n = name)) as [->|Hne].
      * rewrite decide_False by done.
        rewrite decide_True by apply list_elem_of_here.
        by rewrite lookup_insert_eq, Hplan.
      * rewrite lookup_insert_ne by done.
        destruct (decide (n ∈ rest.*1)) as [Hr|Hr].
        -- rewrite decide_True; [done|]. by apply list_elem_of_further.
        -- rewrite decide_False; [done|].
           intros Hc. apply elem_of_cons in Hc as [?|?]; done.
    + intros n' p' Hin'. rewrite Hstep.
      rewrite lookup_insert_ne.
      * apply Hin. by apply list_elem_of_further.
      * intros <-. apply Hfresh. apply list_elem_of_fmap. by exists (name, p').
Qed.

Lemma trySchedule_plans (ttl : Z) (now : Time) (realTime : string -> Time)
    (s : scheduler.Scheduler) (c : etcd.Store) (n : string) :
  scheduler.jobPlans (scheduler.trySchedule ttl now realTime s c).1.1 !! n =
    (fun p => scheduler.mkJobSchedulePlan (scheduler.PlanJob p) (scheduler.Expr p)
                (if scheduler.NextTime p <=? now
                 then Next (scheduler.Expr p) now
                 else scheduler.NextTime p)) <$> scheduler.jobPlans s !! n.
Proof.
  unfold scheduler.trySchedule.
  rewrite fold_tickPlan_plans.
  - case_decide as Hin; [done|].
    destruct (scheduler.jobPlans s !! n) as [p|] eqn:Hp; [|done].
    exfalso. apply Hin. apply list_elem_of_fmap. exists (n, p).
    split; [done|]. by apply elem_of_map_to_list.
  - apply NoDup_fst_map_to_list.
  - intros n' p'. apply elem_of_map_to_list.
Qed.

(** X23: one tick of the scheduler keeps every plan under its name with
    its job and its expression, and adds or removes none; the plans that
    were due (next fire time at or before [now]) get the next fire time
    after [now], the others keep theirs.  With a cron library whose next
    time lies strictly after the time asked, every plan is due strictly
    after [now] when the tick is over. *)
Theorem trySchedule_advances_due_plans (ttl : Z) (now : Time)
    (realTime : string -> Time) (s : scheduler.Scheduler) (c : etcd.Store) :
  (∀ (expr : Expression) (t : Time), t < Next expr t) →
  (∀ n : string,
     scheduler.jobPlans (scheduler.trySchedule ttl now realTime s c).1.1 !! n =
       (fun p => scheduler.mkJobSchedulePlan (scheduler.PlanJob p) (scheduler.Expr p)
                   (if scheduler.NextTime p <=? now
                    then Next (scheduler.Expr p) now
                    else scheduler.NextTime p)) <$> scheduler.jobPlans s !! n) ∧
  (∀ (n : string) (p : scheduler.JobSchedulePlan),
     scheduler.jobPlans (scheduler.trySchedule ttl now realTime s c).1.1 !! n = Some p →
     now < scheduler.NextTime p).
Proof.
  intros Hnext. split; [apply trySchedule_plans|].
  intros n p. rewrite trySchedule_plans.
  destruct (scheduler.jobPlans s !! n) as [p0|]; simpl; [|done].
  intros [= <-]. simpl.
  destruct (Z.leb_spec (scheduler.NextTime p0) now); [apply Hnext|lia].
Qed.

(** X26: the plan table holds only enabled jobs with an expression that
    parses.  If every plan sits under the name of its job, the job is not
    disabled and the plan's expression is the parse of the job's cron
    expression, the same is true after [handleJobEvent] on any event,
    after [loadJobs] on any list of jobs, and after a tick. *)
Theorem jobPlans_invariant (now : Time) (nowOf realTime : string -> Time)
    (event : JobEvent) (jobs : list Job) (ttl : Z)
    (s : scheduler.Scheduler) (c : etcd.Store) :
  (∀ (n : string) (p : scheduler.JobSchedulePlan),
     scheduler.jobPlans s !! n = Some p →
     Name (scheduler.PlanJob p) = n ∧ Disabled (scheduler.PlanJob p) = false ∧
     Parse (CronExpr (scheduler.PlanJob p)) = Some (scheduler.Expr p)) →
  (∀ (n : string) (p : scheduler.JobSchedulePlan),
     scheduler.jobPlans (scheduler.handleJobEvent now event s) !! n = Some p →
     Name (scheduler.PlanJob p) = n ∧ Disabled (scheduler.PlanJob p) = false ∧
     Parse (CronExpr (scheduler.PlanJob p)) = Some (scheduler.Expr p)) ∧
  (∀ (n : string) (p : scheduler.JobSchedulePlan),
     scheduler.jobPlans (scheduler.loadJobs nowOf jobs s) !! n = Some p →
     Name (scheduler.PlanJob p) = n ∧ Disabled (scheduler.PlanJob p) = false ∧
     Parse (CronExpr (scheduler.PlanJob p)) = Some (scheduler.Expr p)) ∧
  (∀ (n : string) (p : scheduler.JobSchedulePlan),
     scheduler.jobPlans (scheduler.trySchedule ttl now realTime s c).1.1 !! n = Some p →
     Name (scheduler.PlanJob p) = n ∧ Disabled (scheduler.PlanJob p) = false ∧
     Parse (CronExpr (scheduler.PlanJob p)) = Some (scheduler.Expr p)).
Proof.
  intros Hinv. split; [|split].
  - intros n p. unfold scheduler.handleJobEvent.
    destruct (EventType event =? JobEventSave).
    + destruct (Disabled (EventJob event)) eqn:Hdis.
      * destruct (scheduler.jobPlans s !! Name (EventJob event)); simpl; [|apply Hinv].
        intros Hl. apply lookup_delete_Some in Hl as [_ Hl]. by apply Hinv.
      * destruct (Parse (CronExpr (EventJob event))) as [expr|] eqn:Hp;
          simpl; [|apply Hinv].
        destruct (decide (Name (EventJob event) = n)) as [<-|Hne].
        -- rewrite lookup_insert_eq. by intros [= <-].
        -- rewrite lookup_insert_ne by done. apply Hinv.
    + destruct (EventType event =? JobEventDelete); [|apply Hinv].
      destruct (scheduler.jobPlans s !! Name (EventJob event)); simpl; [|apply Hinv].
      intros Hl. apply lookup_delete_Some in Hl as [_ Hl]. by apply Hinv.
  - unfold scheduler.loadJobs. revert s Hinv.
    induction jobs as [|job jobs IH]; intros s Hinv; simpl; [exact Hinv|].
    apply IH. unfold scheduler.loadJob.
    destruct (Disabled job) eqn:Hdis; [exact Hinv|].
    destruct (Parse (CronExpr job)) as [expr|] eqn:Hp; [|exact Hinv].
    intros n p. simpl. destruct (decide (Name job = n)) as [<-|Hne].
    + rewrite lookup_insert_eq. by intros [= <-].
    + rewrite lookup_insert_ne by done. apply Hinv.
  - intros n p. rewrite trySchedule_plans.
    destruct (scheduler.jobPlans s !! n) as [p0|] eqn:Hp0; simpl; [|done].
    intros [= <-]. simpl. by apply Hinv.
Qed.

End ticking.

Section dispatching.
Context `{Cronexpr}.

Lemma fold_tickPlan_started (ttl : Z) (now : Time) (realTime : string -> Time)
    (s0 : scheduler.Scheduler)
    (entries : list (string * scheduler.JobSchedulePlan))
    (s : scheduler.Scheduler) (c : etcd.Store) (started : list JobExecuteInfo) :
  (∀ (n : string) (p : scheduler.JobSchedulePlan),
     (n, p) ∈ entries → scheduler.jobPlans s0 !! n = Some p) →
  (∀ (n : string) (info : JobExecuteInfo),
     scheduler.jobExecuting s0 !! n = Some info →
     scheduler.jobExecuting s !! n = Some info) →
  NoDup ((fun info => Name (InfoJob info)) <$> started) →
  (∀ info : JobExecuteInfo, info ∈ started →
     scheduler.jobExecuting s0 !! Name (InfoJob info) = None ∧
     scheduler.jobExecuting s !! Name (InfoJob info) = Some info ∧
     ∃ (key : string) (plan : scheduler.JobSchedulePlan),
       scheduler.jobPlans s0 !! key = Some plan ∧
       scheduler.NextTime plan <= now ∧
       info = mkJobExecuteInfo (scheduler.PlanJob plan) (scheduler.NextTime plan)
                (realTime key)) →
  let st := fold_left (scheduler.tickPlan ttl now realTime) entries (s, c, started) in
  (∀ (n : string) (info : JobExecuteInfo),
     scheduler.jobExecuting s0 !! n = Some info →
     scheduler.jobExecuting st.1.1 !! n = Some info) ∧
  NoDup ((fun info => Name (InfoJob info)) <$> st.2) ∧
  (∀ info : JobExecuteInfo, info ∈ st.2 →
     scheduler.jobExecuting s0 !! Name (InfoJob info) = None ∧
     scheduler.jobExecuting st.1.1 !! Name (InfoJob info) = Some info ∧
     ∃ (key : string) (plan : scheduler.JobSchedulePlan),
       scheduler.jobPlans s0 !! key = Some plan ∧
       scheduler.NextTime plan <= now ∧
       info = mkJobExecuteInfo (scheduler.PlanJob plan) (scheduler.NextTime plan)
                (realTime key)).
Proof.
  revert s c started.
  induction entries as [|[name plan] rest IH];
    intros s c started Hent Hkeep Hnd Hstarted; [done|].
  cbn [fold_left]. cbv zeta.
  assert (Hplan : scheduler.jobPlans s0 !! name = Some plan).
  { apply Hent. apply list_elem_of_here. }
  assert (Hrest : ∀ n p, (n, p) ∈ rest → scheduler.jobPlans s0 !! n = Some p).
  { intros n p Hin. apply Hent. by apply list_elem_of_further. }
  remember (scheduler.tickPlan ttl now realTime (s, c, started) (name, plan))
    as st1 eqn:Hst1.
  unfold scheduler.tickPlan in Hst1.
  destruct (Z.leb_spec (scheduler.NextTime plan) now) as [Hdue|Hnot];
    [|subst st1; by apply (IH s c started)].
  pose proof (tryStartJob_effect ttl (realTime name) plan s c) as Heff.
  destruct (scheduler.tryStartJob ttl (realTime name) plan s c) as [[s' c'] [info|]];
    simpl in Heff; subst st1.
  - destruct Heff as (Hfree & -> & ->).
    set (info := mkJobExecuteInfo (scheduler.PlanJob plan) (scheduler.NextTime plan)
                   (realTime name)).
    set (jn := Name (scheduler.PlanJob plan)) in *.
    apply IH; simpl; [done| | |].
    + intros n i Hn. rewrite lookup_insert_ne; [by apply Hkeep|].
      intros <-. apply Hkeep in Hn. congruence.
    + rewrite fmap_app. apply NoDup_app. split; [done|]. split.
      * intros x Hx Hx'. simpl in Hx'. apply list_elem_of_singleton in Hx'. subst x.
        apply list_elem_of_fmap in Hx as (i & Hi & Hin).
        apply Hstarted in Hin as (_ & Hsome & _).
        unfold jn in Hfree. rewrite Hi in Hfree. congruence.
      * simpl. apply NoDup_singleton.
    + intros i Hi. apply elem_of_app in Hi as [Hi|Hi].
      * destruct (Hstarted i Hi) as (Hnone & Hsome & Hex).
        split; [done|]. split; [|done].
        rewrite lookup_insert_ne; [done|]. intros Heq. congruence.
      * apply list_elem_of_singleton in Hi. subst i. simpl. fold jn.
        split; [|split].
        -- destruct (scheduler.jobExecuting s0 !! jn) eqn:Hs0; [|done].
           apply Hkeep in Hs0. congruence.
        -- apply lookup_insert_eq.
        -- by exists name, plan.
  - subst s'. simpl. rewrite app_nil_r. by apply IH.
Qed.

(** X25: in one tick of the scheduler every job is started at most once,
    and no job is started that was already in the in-flight table.  Each
    execution started belongs to a plan that was due, takes that plan's
    fire time as its planned time, and is in the in-flight table when the
    tick is over; the entries that were in the in-flight table before are
    all still there. *)
Theorem trySchedule_starts_once (ttl : Z) (now : Time) (realTime : string -> Time)
    (s : scheduler.Scheduler) (c : etcd.Store) :
  let st := scheduler.trySchedule ttl now realTime s c in
  NoDup ((fun info => Name (InfoJob info)) <$> st.2) ∧
  (∀ info : JobExecuteInfo, info ∈ st.2 →
     scheduler.jobExecuting s !! Name (InfoJob info) = None ∧
     scheduler.jobExecuting st.1.1 !! Name (InfoJob info) = Some info ∧
     ∃ (key : string) (plan : scheduler.JobSchedulePlan),
       scheduler.jobPlans s !! key = Some plan ∧
       scheduler.NextTime plan <= now ∧
       info = mkJobExecuteInfo (scheduler.PlanJob plan) (scheduler.NextTime plan)
                (realTime key)) ∧
  (∀ (n : string) (info : JobExecuteInfo),
     scheduler.jobExecuting s !! n = Some info →
     scheduler.jobExecuting st.1.1 !! n = Some info).
Proof.
  intros st. subst st. unfold scheduler.trySchedule.
  destruct (fold_tickPlan_started ttl now realTime s (map_to_list (scheduler.jobPlans s))
              s c []) as (Hkeep & Hnd & Hstarted).
  - intros n p. apply elem_of_map_to_list.
  - done.
  - simpl. apply NoDup_nil_2.
  - intros info Hin. by apply elem_of_nil in Hin.
  - cbv zeta in Hkeep, Hnd, Hstarted. done.
Qed.

End dispatching.

Lemma demo_Next_after (expr : @Expression demo.cronexpr) (t : Time) :
  t < @Next demo.cronexpr expr t.
Proof.
  simpl. pose proof (Z.mod_pos_bound t 1000000000 ltac:(lia)) as Hm.
  pose proof (Z.div_mod t 1000000000 ltac:(lia)) as Hd. lia.
Qed.

Lemma trySchedule_advances_due_plans_witness :
  (∀ (expr : @Expression demo.cronexpr) (t : Time), t < @Next demo.cronexpr expr t) ∧
  ∀ (n : string) (p : @scheduler.JobSchedulePlan demo.cronexpr),
    scheduler.jobPlans
      (@scheduler.trySchedule demo.cronexpr 5 6050000000 (fun _ => 6100000000)
         demo.sched1 demo.store0).1.1 !! n = Some p →
    6050000000 < scheduler.NextTime p.
Proof.
  split; [exact demo_Next_after|].
  apply (@trySchedule_advances_due_plans demo.cronexpr 5 6050000000
           (fun _ => 6100000000) demo.sched1 demo.store0 demo_Next_after).
Defined.

Lemma jobPlans_invariant_witness :
  (∀ (n : string) (p : @scheduler.JobSchedulePlan demo.cronexpr),
     scheduler.jobPlans (@scheduler.NewScheduler demo.cronexpr) !! n = Some p →
     Name (scheduler.PlanJob p) = n ∧ Disabled (scheduler.PlanJob p) = false ∧
     @Parse demo.cronexpr (CronExpr (scheduler.PlanJob p)) = Some (scheduler.Expr p)) ∧
  ∀ (n : string) (p : @scheduler.JobSchedulePlan demo.cronexpr),
    scheduler.jobPlans
      (@scheduler.loadJobs demo.cronexpr (fun _ => 5000000000) [demo.job1]
         (@scheduler.NewScheduler demo.cronexpr)) !! n = Some p →
    Name (scheduler.PlanJob p) = n ∧ Disabled (scheduler.PlanJob p) = false ∧
    @Parse demo.cronexpr (CronExpr (scheduler.PlanJob p)) = Some (scheduler.Expr p).
Proof.
  assert (Hempty : ∀ (n : string) (p : @scheduler.JobSchedulePlan demo.cronexpr),
            scheduler.jobPlans (@scheduler.NewScheduler demo.cronexpr) !! n = Some p →
            Name (scheduler.PlanJob p) = n ∧ Disabled (scheduler.PlanJob p) = false ∧
            @Parse demo.cronexpr (CronExpr (scheduler.PlanJob p))
              = Some (scheduler.Expr p)).
  { intros n p. simpl. by rewrite lookup_empty. }
  split; [exact Hempty|].
  apply (@jobPlans_invariant demo.cronexpr 5000000000 (fun _ => 5000000000)
           (fun _ => 5000000000) demo.bad_cron_event [demo.job1] 5
           (@scheduler.NewScheduler demo.cronexpr) demo.store0 Hempty).
Defined.
